(** * RpcMessageSubject: the client-side handle of one correlated RPC call

    A shallow embedding of [packages/rpc/src/client/message-subject.ts].

    The handle is a small state machine driven by synchronous calls.  Its
    three mutable fields ([uncatchedNext], [onReplyCallback], [rejected])
    are modelled as record fields.  Closures stored in the handle are
    defunctionalised: each listener the class can install is a constructor
    of [Listener], and [invoke] gives its body.  The promise an accessor
    returns lives in a promise store, indexed by allocation order.  Every
    call that leaves the class ([release], [continuation], the resolve and
    reject functions of a promise, callbacks supplied by the user) is
    recorded in a trace, newest event first. *)

From stdpp Require Import base list strings pretty gmap.
From Stdlib Require Import ZArith Ascii.

Local Open Scope Z_scope.

(** ** Values that cross the interface *)

(** [ReceiveType<T>]: a schema handed to [parseBody]; opaque here. *)
Inductive Schema := ReceiveType (id : nat).

(** A decoded body, or a body to be sent; opaque here. *)
Inductive Body := BodyValue (id : nat).

(** Error values.  [RpcError] and [UnexpectedMessageType] are the two error
    classes this file constructs, each with its message string; [ErrorValue]
    stands for any other value that is thrown or passed as an error. *)
Inductive JsError :=
| RpcError (message : string)
| UnexpectedMessageType (message : string)
| ErrorValue (id : nat).

(** Modelled from the spec: the reply message representation ([RpcMessage] of
    protocol.ts is imported as a type only).  It exposes a type-tag field, an
    error predicate, an error-extraction operation and a body-parse operation
    that may raise a parse error ([inl]) or return the decoded body ([inr]).
    Type tags are integer codes. *)
Record RpcMessage := {
  type : Z;
  isError : bool;
  getError : JsError;
  parseBody : Schema -> JsError + Body
}.

(** What a promise can be resolved with: [undefined], the raw message, or a
    parsed body. *)
Inductive Value :=
| Undefined
| MessageValue (m : RpcMessage)
| ParsedBody (b : Body).

Inductive Promise :=
| Pending
| Resolved (v : Value)
| Rejected (e : JsError).

(** ** Closures held by the handle *)

(** The functions [onReplyCallback] can hold.  [p] is the promise whose
    [resolve] and [reject] the accessor's arrow function captured. *)
Inductive Listener :=
| OnReplyCallbackMethod                 (* the class method, line 24 *)
| CatchOnReplyCallback                  (* the method bound to this, line 30 *)
| Noop                                  (* function noop() {}, line 19 *)
| ReplyCallback (id : nat)              (* a callback given to onReply by a caller *)
| AckThenCloseListener (p : nat)
| WaitNextMessageListener (p : nat)
| WaitNextListener (p : nat) (expected : Z) (schema : option Schema)
| FirstThenCloseListener (p : nat) (expected : Z) (schema : option Schema).

(** The functions [rejected] can hold. *)
Inductive Rejecter :=
| PromiseReject (p : nat)               (* the reject function of promise p *)
| RejectedCallback (id : nat).          (* a callback given to onRejected by a caller *)

(** Calls that leave the class. *)
Inductive Event :=
| EvRelease
| EvContinuation (ty : Z) (body : option Body) (schema : option Schema)
| EvResolve (p : nat) (v : Value)
| EvReject (p : nat) (e : JsError)
| EvReplyCallback (id : nat) (m : RpcMessage)
| EvRejectedCallback (id : nat) (e : JsError).

(** ** State *)

(** The handle's fields, the promise store and the trace.  Callbacks supplied
    from outside ([release], [continuation], [ReplyCallback],
    [RejectedCallback]) are opaque: a call appends an event and returns; they
    do not re-enter the handle.  The only operation that can throw is
    [parseBody]. *)
Record State := {
  uncatchedNext : option RpcMessage;
  onReplyCallback : Listener;
  rejected : option Rejecter;
  promises : list Promise;
  trace : list Event
}.

Definition set_uncatchedNext (o : option RpcMessage) (s : State) : State :=
  {| uncatchedNext := o; onReplyCallback := onReplyCallback s;
     rejected := rejected s; promises := promises s; trace := trace s |}.

Definition set_onReplyCallback (l : Listener) (s : State) : State :=
  {| uncatchedNext := uncatchedNext s; onReplyCallback := l;
     rejected := rejected s; promises := promises s; trace := trace s |}.

Definition set_rejected (r : option Rejecter) (s : State) : State :=
  {| uncatchedNext := uncatchedNext s; onReplyCallback := onReplyCallback s;
     rejected := r; promises := promises s; trace := trace s |}.

Definition set_promises (ps : list Promise) (s : State) : State :=
  {| uncatchedNext := uncatchedNext s; onReplyCallback := onReplyCallback s;
     rejected := rejected s; promises := ps; trace := trace s |}.

Definition log (e : Event) (s : State) : State :=
  {| uncatchedNext := uncatchedNext s; onReplyCallback := onReplyCallback s;
     rejected := rejected s; promises := promises s; trace := e :: trace s |}.

(** How a synchronous call ends: it returns, or an exception leaves it.  In
    both cases the handle keeps the mutations made so far. *)
Inductive Outcome :=
| Returned (s : State)
| Thrown (e : JsError) (s : State).

Definition state_of (o : Outcome) : State :=
  match o with Returned s => s | Thrown _ s => s end.

(** [new RpcMessageSubject(continuation, release)] *)
Definition constructor : State :=
  {| uncatchedNext := None; onReplyCallback := OnReplyCallbackMethod;
     rejected := None; promises := []; trace := [] |}.

(** ** Promises *)

(** Modelled from the spec: the single-resolution asynchronous result
    ([asyncOperation] of @deepkit/core is not among the sources).  A promise
    is settled by the first call of its resolve or reject function; later
    calls change nothing.  Each call is recorded. *)
Definition settle (p : nat) (r : Promise) (s : State) : State :=
  match promises s !! p with
  | Some Pending => set_promises (<[p := r]> (promises s)) s
  | _ => s
  end.

Definition resolve (p : nat) (v : Value) (s : State) : State :=
  log (EvResolve p v) (settle p (Resolved v) s).

Definition reject (p : nat) (e : JsError) (s : State) : State :=
  log (EvReject p e) (settle p (Rejected e) s).

(** Modelled from the spec: [asyncOperation(executor)] allocates a pending
    promise, runs the executor synchronously with that promise's resolve and
    reject functions, and returns the promise; an exception that leaves the
    executor rejects the promise, as in a Promise constructor. *)
Definition asyncOperation (executor : nat -> State -> Outcome) (s : State)
  : nat * State :=
  let p := length (promises s) in
  let s0 := set_promises (promises s ++ [Pending]) s in
  match executor p s0 with
  | Returned s1 => (p, s1)
  | Thrown e s1 => (p, reject p e s1)
  end.

(** ** The class *)

(** [this.release()] *)
Definition release (s : State) : State := log EvRelease s.

(** `Expected message type ${type}, but received ${next.type}` *)
Definition unexpected_message (expected : string) (received : Z) : string :=
  "Expected message type " +:+ expected +:+ ", but received " +:+ pretty received.

Definition call_rejecter (r : Rejecter) (e : JsError) (s : State) : State :=
  match r with
  | PromiseReject p => reject p e s
  | RejectedCallback id => log (EvRejectedCallback id e) s
  end.

Section Subject.

(** [RpcTypes.Ack]: model.ts is not among the sources, so the tag is a
    parameter. *)
Variable Ack : Z.

(** The body of each function [onReplyCallback] can hold, called with [m]. *)
Definition invoke (l : Listener) (m : RpcMessage) (s : State) : Outcome :=
  match l with
  | OnReplyCallbackMethod | CatchOnReplyCallback =>
      Returned (set_uncatchedNext (Some m) s)
  | Noop => Returned s
  | ReplyCallback id => Returned (log (EvReplyCallback id m) s)
  | AckThenCloseListener p =>
      let s := set_onReplyCallback CatchOnReplyCallback s in
      let s := release s in
      let s := set_rejected None s in
      if type m =? Ack then Returned (resolve p Undefined s)
      else if isError m then Returned (reject p (getError m) s)
      else Returned (reject p
             (UnexpectedMessageType (unexpected_message "Ack" (type m))) s)
  | WaitNextMessageListener p =>
      let s := set_onReplyCallback CatchOnReplyCallback s in
      Returned (resolve p (MessageValue m) s)
  | WaitNextListener p expected schema =>
      let s := set_onReplyCallback CatchOnReplyCallback s in
      if type m =? expected then
        match schema with
        | Some sc =>
            match parseBody m sc with
            | inr b => Returned (resolve p (ParsedBody b) s)
            | inl e => Thrown e s
            end
        | None => Returned (resolve p Undefined s)
        end
      else if isError m then
        let s := release s in
        Returned (reject p (getError m) s)
      else Returned (reject p
             (UnexpectedMessageType
                (unexpected_message (pretty expected) (type m))) s)
  | FirstThenCloseListener p expected schema =>
      let s := set_onReplyCallback CatchOnReplyCallback s in
      let s := release s in
      if type m =? expected then
        match schema with
        | Some sc =>
            match parseBody m sc with
            | inr b => Returned (resolve p (ParsedBody b) s)
            | inl e => Returned (reject p e s)
            end
        | None => Returned (resolve p (MessageValue m) s)
        end
      else if isError m then
        let s := release s in
        Returned (reject p (getError m) s)
      else Returned (reject p
             (UnexpectedMessageType
                (unexpected_message (pretty expected) (type m))) s)
  end.

(** [disconnect(error?)] *)
Definition disconnect (error : option JsError) (s : State) : State :=
  let s :=
    match rejected s with
    | Some r =>
        let s := call_rejecter r (default (RpcError "Connection closed") error) s in
        set_rejected None s
    | None => s
    end in
  let s := set_onReplyCallback Noop s in
  release s.

(** [next(next)] *)
Definition next (m : RpcMessage) (s : State) : Outcome :=
  invoke (onReplyCallback s) m s.

(** [onRejected(callback)] *)
Definition onRejected (callback : Rejecter) (s : State) : State :=
  set_rejected (Some callback) s.

(** [onReply(callback)] *)
Definition onReply (callback : Listener) (s : State) : Outcome :=
  let s := set_onReplyCallback callback s in
  match uncatchedNext s with
  | Some m =>
      match invoke callback m s with
      | Returned s => Returned (set_uncatchedNext None s)
      | Thrown e s => Thrown e s
      end
  | None => Returned s
  end.

(** [send(type, body?, schema?)] *)
Definition send (ty : Z) (body : option Body) (schema : option Schema)
    (s : State) : State :=
  log (EvContinuation ty body schema) s.

(** The executor every accessor passes to [asyncOperation]: install reject as
    the rejection callback, then install the accessor's listener. *)
Definition executor (l : nat -> Listener) (p : nat) (s : State) : Outcome :=
  let s := set_rejected (Some (PromiseReject p)) s in
  onReply (l p) s.

Definition ackThenClose (s : State) : nat * State :=
  asyncOperation (executor AckThenCloseListener) s.

Definition waitNextMessage (s : State) : nat * State :=
  asyncOperation (executor WaitNextMessageListener) s.

Definition waitNext (ty : Z) (schema : option Schema) (s : State) : nat * State :=
  asyncOperation (executor (fun p => WaitNextListener p ty schema)) s.

Definition firstThenClose (ty : Z) (schema : option Schema) (s : State)
  : nat * State :=
  asyncOperation (executor (fun p => FirstThenCloseListener p ty schema)) s.

End Subject.

(** ** Sequences of calls on one handle *)

(** One call on the handle, by the caller or by the dispatcher. *)
Inductive Op :=
| OpSend (ty : Z) (body : option Body) (schema : option Schema)
| OpNext (m : RpcMessage)
| OpDisconnect (error : option JsError)
| OpOnRejected (id : nat)
| OpOnReply (id : nat)
| OpAckThenClose
| OpWaitNextMessage
| OpWaitNext (ty : Z) (schema : option Schema)
| OpFirstThenClose (ty : Z) (schema : option Schema).

Definition step (Ack : Z) (op : Op) (s : State) : Outcome :=
  match op with
  | OpSend ty body schema => Returned (send ty body schema s)
  | OpNext m => next Ack m s
  | OpDisconnect error => Returned (disconnect error s)
  | OpOnRejected id => Returned (onRejected (RejectedCallback id) s)
  | OpOnReply id => onReply Ack (ReplyCallback id) s
  | OpAckThenClose => Returned (snd (ackThenClose Ack s))
  | OpWaitNextMessage => Returned (snd (waitNextMessage Ack s))
  | OpWaitNext ty schema => Returned (snd (waitNext Ack ty schema s))
  | OpFirstThenClose ty schema => Returned (snd (firstThenClose Ack ty schema s))
  end.

(** The calls are made one after the other; an exception that leaves a call
    goes to its caller and the handle stays as that call left it. *)
Fixpoint run (Ack : Z) (ops : list Op) (s : State) : State :=
  match ops with
  | [] => s
  | op :: ops => run Ack ops (state_of (step Ack op s))
  end.

Definition is_accessor (op : Op) : bool :=
  match op with
  | OpAckThenClose | OpWaitNextMessage | OpWaitNext _ _ | OpFirstThenClose _ _ => true
  | _ => false
  end.

(** ** Observations *)

Definition is_release (e : Event) : bool :=
  match e with EvRelease => true | _ => false end.

Fixpoint count_releases (t : list Event) : nat :=
  match t with
  | [] => 0%nat
  | e :: t => ((if is_release e then 1 else 0) + count_releases t)%nat
  end.

(** How many times [release] has been called so far. *)
Definition releases (s : State) : nat := count_releases (trace s).

(** The accessor that owns promise [p] is waiting for a reply: its listener is
    installed and its promise is not settled. *)
Definition awaiting (l : Listener) (p : nat) (s : State) : Prop :=
  onReplyCallback s = l /\ promises s !! p = Some Pending.

(** The listeners the four accessors install for promise [p]. *)
Definition accessor_listener (p : nat) (l : Listener) : bool :=
  match l with
  | AckThenCloseListener q | WaitNextMessageListener q
  | WaitNextListener q _ _ | FirstThenCloseListener q _ _ => Nat.eqb p q
  | _ => false
  end.

(** The error [disconnect] passes to the rejection callback. *)
Definition disconnect_error (error : option JsError) : JsError :=
  default (RpcError "Connection closed") error.

(** No character of [s] is a comma: the separator of the two tags in the
    unexpected-message-type text. *)
Fixpoint comma_free (s : string) : Prop :=
  match s with
  | EmptyString => True
  | String c s => c <> ","%char /\ comma_free s
  end.

(** The arguments of the calls of [continuation] recorded in a trace, newest
    first. *)
Fixpoint continuation_calls (t : list Event)
  : list (Z * option Body * option Schema) :=
  match t with
  | [] => []
  | EvContinuation ty body schema :: t => (ty, body, schema) :: continuation_calls t
  | _ :: t => continuation_calls t
  end.

(** The arguments of the [send] calls of a sequence, first call first. *)
Fixpoint sent (ops : list Op) : list (Z * option Body * option Schema) :=
  match ops with
  | [] => []
  | OpSend ty body schema :: ops => (ty, body, schema) :: sent ops
  | _ :: ops => sent ops
  end.

(** The promise whose resolve and reject functions a listener holds. *)
Definition listener_promise (l : Listener) : option nat :=
  match l with
  | AckThenCloseListener p | WaitNextMessageListener p
  | WaitNextListener p _ _ | FirstThenCloseListener p _ _ => Some p
  | _ => None
  end.

(** Promise [p] exists and the handle holds neither a listener that settles it
    nor its reject function. *)
Definition detached (p : nat) (s : State) : Prop :=
  listener_promise (onReplyCallback s) <> Some p
  /\ rejected s <> Some (PromiseReject p)
  /\ (p < length (promises s))%nat.

(** Calls that use the handle without closing it: [send], [next], [onReply],
    [onRejected] and [waitNextMessage]. *)
Definition keeps_open (op : Op) : bool :=
  match op with
  | OpSend _ _ _ | OpNext _ | OpOnReply _ | OpOnRejected _ | OpWaitNextMessage => true
  | _ => false
  end.

(** Listeners whose body never calls [release]. *)
Definition never_releases (l : Listener) : bool :=
  match l with
  | OnReplyCallbackMethod | CatchOnReplyCallback | Noop | ReplyCallback _
  | WaitNextMessageListener _ => true
  | _ => false
  end.

(** [waitNextMessage()] followed by the delivery of [m], for each [m] of a
    list in turn. *)
Definition request_then_reply (ms : list RpcMessage) : list Op :=
  flat_map (fun m => [OpWaitNextMessage; OpNext m]) ms.

(** How many [disconnect] calls a sequence contains. *)
Fixpoint disconnects (ops : list Op) : nat :=
  match ops with
  | [] => 0%nat
  | OpDisconnect _ :: ops => S (disconnects ops)
  | _ :: ops => disconnects ops
  end.

(** The calls the dispatcher makes: [next] and [disconnect]. *)
Definition by_dispatcher (op : Op) : bool :=
  match op with
  | OpNext _ | OpDisconnect _ => true
  | _ => false
  end.

(** ** Sample replies *)

Definition sample_error : JsError := ErrorValue 1.
Definition sample_parse_error : JsError := ErrorValue 2.
Definition sample_schema : Schema := ReceiveType 0.

(** A reply of type [ty] whose body decodes. *)
Definition reply (ty : Z) (err : bool) : RpcMessage :=
  {| type := ty; isError := err; getError := sample_error;
     parseBody := fun _ => inr (BodyValue 0) |}.

(** A reply of type [ty] whose body does not decode. *)
Definition malformed_reply (ty : Z) : RpcMessage :=
  {| type := ty; isError := false; getError := sample_error;
     parseBody := fun _ => inl sample_parse_error |}.

(** * HttpModule: request access for event listeners

    The second class of the sources: [processListener] gives the listeners of
    three workflow events access to values parsed from the HTTP request, by
    registering one provider per listener parameter that asks for them. *)

Module HttpModule.

(** Event tokens; the three tokens of [httpWorkflow] that the module patches
    are told apart from all others. *)
Inductive EventToken :=
| onRequest
| onAuth
| onController
| OtherToken (id : nat).

#[global] Instance EventToken_eq_dec : EqDecision EventToken.
Proof. solve_decision. Defined.

(** A reflected parameter.  [ReflectionParameter] and [typeAnnotation] belong
    to @deepkit/type, which is not among the sources, so the annotation lookup
    is taken as given: a parameter has a name, and [getType p a] tells whether
    [typeAnnotation.getType(parameter.type, a)] finds an annotation. *)
Record ReflectionParameter := {
  name : string;
  getType : string -> bool
}.

(** [listener.eventToken] and [listener.reflection.getParameters()] *)
Record AddedListener := {
  eventToken : EventToken;
  getParameters : list ReflectionParameter
}.

(** [Symbol('event.parameter:' + parameter.name)]: the description, and the
    loop index at which the symbol was created, which tells apart symbols of
    one [processListener] call that share a description. *)
Record Unique := {
  description : string;
  created_at : nat
}.

(** The calls [processListener] makes: on [typeAnnotation], and on the module
    itself.  A provider is recorded with the index [i] its factory reads
    [result.arguments] at. *)
Inductive Call :=
| registerType (parameter : ReflectionParameter) (inject : Unique)
| addProvider (provide : Unique) (i : nat)
| addExport (token : Unique).

(** The error of line 325. *)
Inductive ListenerError := RequiresAsyncHttpBody.

Definition parameterRequiresRequest (parameter : ReflectionParameter) : bool :=
  getType parameter "httpQueries"
  || getType parameter "httpQuery"
  || getType parameter "httpBody"
  || getType parameter "httpRequestParser"
  || getType parameter "httpPath"
  || getType parameter "httpHeader".

Definition patchEventsForHttpRequestAccess : list EventToken :=
  [onRequest; onAuth; onController].

(** The first loop of [processListener]: the two flags after the parameters
    have been visited, [(requiresHttpRequest, needsAsync)]. *)
Definition flags (params : list ReflectionParameter) : bool * bool :=
  foldl (fun '(requiresHttpRequest, needsAsync) parameter =>
           (if parameterRequiresRequest parameter then true else requiresHttpRequest,
            if getType parameter "httpBody" then true else needsAsync))
        (false, false) params.

(** The second loop, from [index] on, over the parameters not yet visited. *)
Fixpoint register (index : nat) (params : list ReflectionParameter) : list Call :=
  match params with
  | [] => []
  | parameter :: params =>
      if parameterRequiresRequest parameter then
        let unique := {| description := "event.parameter:" +:+ name parameter;
                         created_at := index |} in
        registerType parameter unique
        :: addProvider unique index
        :: addExport unique
        :: register (S index) params
      else register (S index) params
  end.

(** [processListener(module, listener)]: the error thrown, or the calls made,
    first call first. *)
Definition processListener (listener : AddedListener) : ListenerError + list Call :=
  if bool_decide (eventToken listener ∈ patchEventsForHttpRequestAccess) then
    let params := drop 1 (getParameters listener) in
    if snd (flags params) then inl RequiresAsyncHttpBody
    else inr (register 0 params)
  else inr [].

(** The result of [buildRequestParser(httpConfig.parser, params, config)],
    named by the arguments that vary between calls of one factory. *)
Inductive Build := buildRequestParser (parser : nat) (config : option nat).

(** What the factories of one [processListener] call share: [parserCache],
    keyed by route config, and the builds made so far, newest first. *)
Record Factories := {
  parserCache : gmap nat Build;
  built : list Build
}.

(** The [parserCache] of a fresh [processListener] call. *)
Definition no_builds : Factories := {| parserCache := ∅; built := [] |}.

(** [useFactory(httpConfig, request, injector, config?)] up to the choice of
    the parser: the build it uses, and the cache afterwards. *)
Definition useFactory (parser : nat) (config : option nat) (f : Factories)
  : Build * Factories :=
  match config ≫= (fun c => parserCache f !! c) with
  | Some build => (build, f)
  | None =>
      let build := buildRequestParser parser config in
      (build,
       {| parserCache := match config with
                         | Some c => <[c := build]> (parserCache f)
                         | None => parserCache f
                         end;
          built := build :: built f |})
  end.

(** Factory calls one after the other, each with its [httpConfig.parser] and
    route config. *)
Fixpoint useFactories (calls : list (nat * option nat)) (f : Factories)
  : Factories :=
  match calls with
  | [] => f
  | (parser, config) :: calls => useFactories calls (snd (useFactory parser config f))
  end.

(** The indices the registered providers read [result.arguments] at. *)
Fixpoint provider_indices (calls : list Call) : list nat :=
  match calls with
  | [] => []
  | addProvider _ i :: calls => i :: provider_indices calls
  | _ :: calls => provider_indices calls
  end.

(** The three calls of one round of the second loop, for the parameter at
    [index]: all three carry the symbol created in that round. *)
Definition provider_calls (index : nat) (parameter : ReflectionParameter)
  : list Call :=
  let unique := {| description := "event.parameter:" +:+ name parameter;
                   created_at := index |} in
  [registerType parameter unique; addProvider unique index; addExport unique].

(** What one round of the second loop does with the parameter at [index]. *)
Definition round (index : nat) (parameter : ReflectionParameter) : list Call :=
  if parameterRequiresRequest parameter then provider_calls index parameter
  else [].

(** The route config a build was made for. *)
Definition build_config (b : Build) : option nat :=
  match b with buildRequestParser _ config => config end.

(** How many times [buildRequestParser] was called for [config]. *)
Definition builds_for (config : option nat) (f : Factories) : nat :=
  length (filter (fun b => build_config b = config) (built f)).

(** The cache holds a route config exactly when one build was made for it. *)
Definition counted (c : nat) (f : Factories) : Prop :=
  builds_for (Some c) f
  = if bool_decide (is_Some (parserCache f !! c)) then 1%nat else 0%nat.

End HttpModule.

(** * Properties *)

(** ** Settling a promise *)

Lemma settle_frame p r s :
  uncatchedNext (settle p r s) = uncatchedNext s
  /\ onReplyCallback (settle p r s) = onReplyCallback s
  /\ rejected (settle p r s) = rejected s
  /\ trace (settle p r s) = trace s.
Proof.
  unfold settle. destruct (promises s !! p) as [[| |]|]; repeat split.
Qed.

Lemma settle_pending p r s :
  promises s !! p = Some Pending -> promises (settle p r s) !! p = Some r.
Proof.
  intros Hp. unfold settle. rewrite Hp. cbn.
  apply list_lookup_insert_eq. by eapply lookup_lt_Some.
Qed.

Lemma settle_settled p r s :
  promises s !! p <> Some Pending -> settle p r s = s.
Proof.
  intros Hp. unfold settle. destruct (promises s !! p) as [[| |]|]; congruence.
Qed.

Lemma settle_other p q r s :
  p <> q -> promises (settle p r s) !! q = promises s !! q.
Proof.
  intros Hne. unfold settle. destruct (promises s !! p) as [[| |]|]; try done.
  cbn. by apply list_lookup_insert_ne.
Qed.

Lemma resolve_pending p v s :
  promises s !! p = Some Pending ->
  promises (resolve p v s) !! p = Some (Resolved v).
Proof. intros Hp. unfold resolve. cbn. by apply settle_pending. Qed.

Lemma reject_pending p e s :
  promises s !! p = Some Pending ->
  promises (reject p e s) !! p = Some (Rejected e).
Proof. intros Hp. unfold reject. cbn. by apply settle_pending. Qed.

Lemma trace_resolve p v s : trace (resolve p v s) = EvResolve p v :: trace s.
Proof. unfold resolve. cbn. f_equal. apply settle_frame. Qed.

Lemma trace_reject p e s : trace (reject p e s) = EvReject p e :: trace s.
Proof. unfold reject. cbn. f_equal. apply settle_frame. Qed.

Lemma onReplyCallback_settle p r s :
  onReplyCallback (settle p r s) = onReplyCallback s.
Proof. apply settle_frame. Qed.

Lemma rejected_settle p r s : rejected (settle p r s) = rejected s.
Proof. apply settle_frame. Qed.

Lemma uncatchedNext_settle p r s :
  uncatchedNext (settle p r s) = uncatchedNext s.
Proof. apply settle_frame. Qed.

Lemma trace_settle p r s : trace (settle p r s) = trace s.
Proof. apply settle_frame. Qed.

Create Rewrite HintDb subject.
#[local] Hint Rewrite onReplyCallback_settle rejected_settle
  uncatchedNext_settle trace_settle : subject.

(** Fields of a state after the listener's own assignments; [cbn] reduces the
    setters and the rewrite base steps over [settle]. *)
Ltac fields := cbn; repeat (progress (autorewrite with subject; cbn)).

(** Case analysis on the tests a listener makes on the reply. *)
Ltac reply_cases m :=
  repeat match goal with
  | |- context [type m =? ?t] => destruct (Z.eqb_spec (type m) t)
  | |- context [isError m] => destruct (isError m) eqn:?
  | |- context [parseBody m ?sc] => destruct (parseBody m sc) eqn:?
  end.

Lemma releases_log e s :
  releases (log e s) = ((if is_release e then 1 else 0) + releases s)%nat.
Proof. reflexivity. Qed.

Lemma releases_release s : releases (release s) = S (releases s).
Proof. reflexivity. Qed.

Lemma releases_resolve p v s : releases (resolve p v s) = releases s.
Proof. unfold releases. by rewrite trace_resolve. Qed.

Lemma releases_reject p e s : releases (reject p e s) = releases s.
Proof. unfold releases. by rewrite trace_reject. Qed.

Lemma releases_call_rejecter r e s : releases (call_rejecter r e s) = releases s.
Proof. destruct r; [apply releases_reject | reflexivity]. Qed.

(** A default listener stores the reply and does nothing else. *)
Lemma next_buffers Ack m s :
  onReplyCallback s = OnReplyCallbackMethod
  \/ onReplyCallback s = CatchOnReplyCallback ->
  next Ack m s = Returned (set_uncatchedNext (Some m) s).
Proof. unfold next. by intros [-> | ->]. Qed.

(** Every accessor listener begins by restoring the bound default listener. *)
Lemma invoke_accessor_restores Ack p l m s :
  accessor_listener p l = true ->
  onReplyCallback (state_of (invoke Ack l m s)) = CatchOnReplyCallback.
Proof.
  destruct l as [| | | |q|q|q T [sc|]|q T [sc|]]; try discriminate; intros _;
    cbn; reply_cases m; fields.
  all: reflexivity.
Qed.

(** ** The text of the unexpected-message-type error *)

Lemma pretty_N_go_comma_free x s : comma_free s -> comma_free (pretty_N_go x s).
Proof.
  revert s. induction (N.lt_wf_0 x) as [x _ IH]; intros s Hs.
  destruct (decide (x = 0)%N) as [-> | Hx]; [by rewrite pretty_N_go_0|].
  rewrite pretty_N_go_step by lia. apply IH.
  - apply N.div_lt; lia.
  - split; [|exact Hs]. unfold pretty_N_char. by repeat case_match.
Qed.

Lemma pretty_Z_comma_free (z : Z) : comma_free (pretty z).
Proof.
  assert (Hpos : forall x : positive, comma_free (pretty x)).
  { intros x. unfold pretty, pretty_positive, pretty, pretty_N.
    case_decide; [by split | by apply pretty_N_go_comma_free]. }
  destruct z as [|x|x]; unfold pretty, pretty_Z.
  - by split.
  - apply Hpos.
  - split; [done | apply Hpos].
Qed.

Lemma comma_split s1 s2 r1 r2 :
  comma_free s1 -> comma_free s2 ->
  s1 +:+ String "," r1 = s2 +:+ String "," r2 ->
  s1 = s2 /\ r1 = r2.
Proof.
  revert s2. induction s1 as [|c s1 IH]; intros [|d s2]; cbn.
  - intros _ _ [= ->]. done.
  - intros _ [Hd _] [= <- _]. done.
  - intros [Hc _] _ [= -> _]. done.
  - intros [_ H1] [_ H2] [= -> Heq]. destruct (IH s2 H1 H2 Heq) as [-> ->]. done.
Qed.

(** The text determines both tags: the error carries the expected and the
    received type. *)
Lemma unexpected_message_inj (T T' a a' : Z) :
  unexpected_message (pretty T) a = unexpected_message (pretty T') a' ->
  T = T' /\ a = a'.
Proof.
  unfold unexpected_message. intros Heq.
  apply (inj (String.app _)) in Heq.
  apply comma_split in Heq as [HT Ha]; [| apply pretty_Z_comma_free..].
  apply (inj pretty) in HT. injection Ha as Ha.
  apply (inj pretty) in Ha. done.
Qed.

(** ** Buffering and replay *)




(** ** Disconnect *)

(** C3. [disconnect(error?)]: an installed rejection callback is called once
    with the given error, or with RpcError('Connection closed') when none is
    given, and is then cleared (with no callback installed nothing is called);
    a pending promise whose reject function was installed is thereby rejected
    with that error; the listener becomes [noop]; [release] is called.  From
    then on no delivery changes anything: each [next] returns with the state
    as it was. *)
Theorem disconnect_behaviour Ack error s :
  let err := match error with
             | Some e => e
             | None => RpcError "Connection closed"
             end in
  let s' := disconnect error s in
  trace s' =
    EvRelease ::
    match rejected s with
    | Some (PromiseReject p) => [EvReject p err]
    | Some (RejectedCallback id) => [EvRejectedCallback id err]
    | None => []
    end ++ trace s
  /\ rejected s' = None
  /\ onReplyCallback s' = Noop
  /\ (forall p, rejected s = Some (PromiseReject p) ->
                promises s !! p = Some Pending ->
                promises s' !! p = Some (Rejected err))
  /\ (forall m, next Ack m s' = Returned s')
  /\ (forall ms, run Ack (map OpNext ms) s' = s').
Proof.
  intros err s'. subst err s'. unfold disconnect.
  split; [|split; [|split; [|split; [|split]]]].
  - destruct (rejected s) as [[p | id]|], error; fields; reflexivity.
  - destruct (rejected s) as [[p | id]|] eqn:Hr; [reflexivity.. | exact Hr].
  - destruct (rejected s) as [[p | id]|]; reflexivity.
  - intros p -> Hp. cbn. destruct error; cbn; by apply settle_pending.
  - intros m. reflexivity.
  - intros ms. induction ms as [|m ms IH]; [reflexivity | exact IH].
Qed.

Lemma disconnect_behaviour_witness :
  let s := snd (firstThenClose 0 7 None constructor) in
  promises (disconnect (Some (ErrorValue 9)) s) !! 0%nat
  = Some (Rejected (ErrorValue 9)).
Proof.
  intros s.
  destruct (disconnect_behaviour 0 (Some (ErrorValue 9)) s)
    as (_ & _ & _ & Hreject & _).
  apply Hreject; reflexivity.
Defined.

(** ** Calling an accessor *)

(** With nothing buffered, an accessor returns a pending promise [p], with
    its listener installed and the reject function of [p] as the rejection
    callback, and calls nothing. *)
Lemma accessor_awaiting Ack (mk : nat -> Listener) s :
  uncatchedNext s = None ->
  let p := fst (asyncOperation (executor Ack mk) s) in
  let s1 := snd (asyncOperation (executor Ack mk) s) in
  p = length (promises s)
  /\ awaiting (mk p) p s1
  /\ rejected s1 = Some (PromiseReject p)
  /\ trace s1 = trace s.
Proof.
  intros Hb. unfold asyncOperation, executor, onReply. cbn. rewrite Hb. cbn.
  repeat split. by apply list_lookup_middle.
Qed.

(** ** Replies delivered to a waiting accessor *)

(** Unfold a delivery to the listener named by hypothesis [H] and decide the
    tests the listener makes with the facts in the context. *)
Ltac deliver H :=
  unfold next; rewrite H; cbn [invoke];
  repeat match goal with
  | Hne : type ?m <> ?t |- context [type ?m =? ?t] =>
      rewrite (proj2 (Z.eqb_neq (type m) t) Hne)
  | Heq : type ?m = ?t |- context [type ?m =? ?t] =>
      rewrite (proj2 (Z.eqb_eq (type m) t) Heq)
  | He : isError ?m = _ |- context [isError ?m] => rewrite He
  | Hb : parseBody ?m ?sc = _ |- context [parseBody ?m ?sc] => rewrite Hb
  end.

(** Close a goal [exists s', call = Returned s' /\ promise /\ trace ...] once
    the call has been reduced to [Returned _]. *)
Ltac settled Hp :=
  eexists; split; [reflexivity |];
  repeat split;
  first [ apply reject_pending; exact Hp
        | apply resolve_pending; exact Hp
        | rewrite ?releases_reject, ?releases_resolve; reflexivity
        | fields; reflexivity ].

(** C4 (as amended). A reply that is neither of type [T] nor error-tagged
    makes both [waitNext(T)] and [firstThenClose(T)] reject with the
    unexpected-message-type error.  [waitNext] leaves the handle un-released
    on that path, whereas its error-tagged path releases once.
    [firstThenClose] releases exactly once on that path too: its listener
    calls [release] before it looks at the reply. *)
Theorem plain_mismatch_release Ack p T sc m s :
  type m <> T ->
  promises s !! p = Some Pending ->
  let unexpected :=
    UnexpectedMessageType (unexpected_message (pretty T) (type m)) in
  (onReplyCallback s = WaitNextListener p T sc ->
   isError m = false ->
   exists s', next Ack m s = Returned s'
     /\ promises s' !! p = Some (Rejected unexpected)
     /\ trace s' = EvReject p unexpected :: trace s
     /\ releases s' = releases s)
  /\ (onReplyCallback s = WaitNextListener p T sc ->
   isError m = true ->
   exists s', next Ack m s = Returned s'
     /\ releases s' = S (releases s))
  /\ (onReplyCallback s = FirstThenCloseListener p T sc ->
   isError m = false ->
   exists s', next Ack m s = Returned s'
     /\ promises s' !! p = Some (Rejected unexpected)
     /\ trace s' = EvReject p unexpected :: EvRelease :: trace s
     /\ releases s' = S (releases s)).
Proof.
  intros Hne Hp unexpected. subst unexpected.
  split; [|split]; intros Hl He; deliver Hl; settled Hp.
Qed.

Lemma plain_mismatch_release_witness :
  let s := snd (firstThenClose 0 7 None constructor) in
  exists s', next 0 (reply 99 false) s = Returned s'
    /\ promises s' !! 0%nat
       = Some (Rejected (UnexpectedMessageType
                           (unexpected_message (pretty 7) 99)))
    /\ trace s'
       = EvReject 0 (UnexpectedMessageType (unexpected_message (pretty 7) 99))
         :: EvRelease :: trace s
    /\ releases s' = S (releases s).
Proof.
  intros s.
  assert (Hne : type (reply 99 false) <> 7) by discriminate.
  assert (Hp : promises s !! 0%nat = Some Pending) by reflexivity.
  destruct (plain_mismatch_release 0 0 7 None (reply 99 false) s Hne Hp)
    as (_ & _ & Hfirst).
  apply Hfirst; reflexivity.
Defined.

(** C4, the claim as written fails: after [firstThenClose(7)] a reply of type
    99 that is not error-tagged is delivered, and [release] has been called. *)
Lemma firstThenClose_mismatch_is_released :
  let s := snd (firstThenClose 0 7 None constructor) in
  let s' := state_of (next 0 (reply 99 false) s) in
  isError (reply 99 false) = false
  /\ type (reply 99 false) <> 7
  /\ promises s' !! 0%nat
     = Some (Rejected (UnexpectedMessageType
                         "Expected message type 7, but received 99"))
  /\ releases s = 0%nat
  /\ releases s' = 1%nat.
Proof. repeat split. discriminate. Qed.

(** C5. Type matching exactness of [waitNext(T)]: if the delivery resolves
    the promise, the reply's type tag is [T]; and a reply whose tag differs
    from [T] and that is not error-tagged rejects the promise with
    UnexpectedMessageType, whose message names [T] as expected and the reply's
    tag as received (both can be read back from the text).  On a reply of type
    [T] the promise is resolved, unless the body does not decode. *)
Theorem waitNext_type_exact Ack p T sc m s :
  awaiting (WaitNextListener p T sc) p s ->
  (forall v, promises (state_of (next Ack m s)) !! p = Some (Resolved v) ->
             type m = T)
  /\ (type m <> T -> isError m = false ->
      exists s' text, next Ack m s = Returned s'
        /\ promises s' !! p = Some (Rejected (UnexpectedMessageType text))
        /\ text = "Expected message type " +:+ pretty T
                  +:+ ", but received " +:+ pretty (type m)
        /\ (forall T' a', text = unexpected_message (pretty T') a' ->
                          T' = T /\ a' = type m))
  /\ (type m = T ->
      (sc = None /\ promises (state_of (next Ack m s)) !! p
                    = Some (Resolved Undefined))
      \/ (exists c b, sc = Some c /\ parseBody m c = inr b
          /\ promises (state_of (next Ack m s)) !! p
             = Some (Resolved (ParsedBody b)))
      \/ (exists c e, sc = Some c /\ parseBody m c = inl e)).
Proof.
  intros [Hl Hp]. split; [|split].
  - intros v. unfold next. rewrite Hl. cbn [invoke].
    destruct (Z.eqb_spec (type m) T) as [|Hne]; [done|].
    destruct (isError m); cbn [state_of].
    + rewrite reject_pending; [discriminate | exact Hp].
    + rewrite reject_pending; [discriminate | exact Hp].
  - intros Hne He. deliver Hl. eexists _, _.
    split; [reflexivity|]. split; [apply reject_pending; exact Hp|].
    split; [reflexivity|].
    intros T' a' Htext. by destruct (unexpected_message_inj _ _ _ _ Htext).
  - intros Heq. destruct sc as [c|].
    + destruct (parseBody m c) as [e|b] eqn:Hb.
      * right. right. by exists c, e.
      * right. left. exists c, b. repeat split; [exact Hb|].
        deliver Hl. cbn. by apply settle_pending.
    + left. split; [reflexivity|]. deliver Hl. cbn. by apply settle_pending.
Qed.

Lemma waitNext_type_exact_witness :
  let s := snd (waitNext 0 42 None constructor) in
  exists s' text, next 0 (reply 99 false) s = Returned s'
    /\ promises s' !! 0%nat = Some (Rejected (UnexpectedMessageType text))
    /\ text = "Expected message type " +:+ pretty 42
              +:+ ", but received " +:+ pretty (type (reply 99 false))
    /\ (forall T' a', text = unexpected_message (pretty T') a' ->
                      T' = 42 /\ a' = type (reply 99 false)).
Proof.
  intros s.
  assert (Ha : awaiting (WaitNextListener 0 42 None) 0 s) by (split; reflexivity).
  destruct (waitNext_type_exact 0 0 42 None (reply 99 false) s Ha)
    as (_ & Hmismatch & _).
  apply Hmismatch; [discriminate | reflexivity].
Defined.

(** ** Error-tagged replies *)

(** C7 (as amended). An error-tagged reply whose type tag is not the one the
    accessor waits for makes [ackThenClose], [waitNext(T)] and
    [firstThenClose(T)] reject with the carried error, unchanged, and
    [release] is called on that path ([ackThenClose] and [waitNext] call it
    once).  [waitNextMessage] does not look at the error tag: it resolves with
    the raw message and does not call [release]. *)
Theorem error_reply_outcome Ack p m s :
  isError m = true ->
  promises s !! p = Some Pending ->
  (onReplyCallback s = AckThenCloseListener p ->
   type m <> Ack ->
   exists s', next Ack m s = Returned s'
     /\ promises s' !! p = Some (Rejected (getError m))
     /\ trace s' = EvReject p (getError m) :: EvRelease :: trace s)
  /\ (forall T sc,
   onReplyCallback s = WaitNextListener p T sc ->
   type m <> T ->
   exists s', next Ack m s = Returned s'
     /\ promises s' !! p = Some (Rejected (getError m))
     /\ trace s' = EvReject p (getError m) :: EvRelease :: trace s)
  /\ (forall T sc,
   onReplyCallback s = FirstThenCloseListener p T sc ->
   type m <> T ->
   exists s', next Ack m s = Returned s'
     /\ promises s' !! p = Some (Rejected (getError m))
     /\ (releases s < releases s')%nat)
  /\ (onReplyCallback s = WaitNextMessageListener p ->
   exists s', next Ack m s = Returned s'
     /\ promises s' !! p = Some (Resolved (MessageValue m))
     /\ trace s' = EvResolve p (MessageValue m) :: trace s
     /\ releases s' = releases s).
Proof.
  intros He Hp. split; [|split; [|split]].
  - intros Hl Hne. deliver Hl. settled Hp.
  - intros T sc Hl Hne. deliver Hl. settled Hp.
  - intros T sc Hl Hne. deliver Hl.
    eexists. split; [reflexivity|]. split.
    + apply reject_pending. exact Hp.
    + rewrite releases_reject, !releases_release.
      unfold releases. cbn. lia.
  - intros Hl. deliver Hl. settled Hp.
Qed.

Lemma error_reply_outcome_witness :
  let s := snd (waitNext 0 42 None constructor) in
  exists s', next 0 (reply 1 true) s = Returned s'
    /\ promises s' !! 0%nat = Some (Rejected (getError (reply 1 true)))
    /\ trace s' = EvReject 0 (getError (reply 1 true)) :: EvRelease :: trace s.
Proof.
  intros s.
  assert (He : isError (reply 1 true) = true) by reflexivity.
  assert (Hp : promises s !! 0%nat = Some Pending) by reflexivity.
  destruct (error_reply_outcome 0 0 (reply 1 true) s He Hp)
    as (_ & HwaitNext & _).
  apply (HwaitNext 42 None); [reflexivity | discriminate].
Defined.

(** C7, the claim as written fails for [waitNextMessage]: an error-tagged
    reply resolves it with the raw message and [release] is not called. *)
Lemma waitNextMessage_error_reply_resolves :
  let s := snd (waitNextMessage 0 constructor) in
  let m := reply 1 true in
  let s' := state_of (next 0 m s) in
  isError m = true
  /\ promises s !! 0%nat = Some Pending
  /\ promises s' !! 0%nat = Some (Resolved (MessageValue m))
  /\ releases s' = 0%nat.
Proof. repeat split. Qed.



(** ** The rejection callback after settlement *)

(** C10. A reply delivered to [ackThenClose] clears the rejection callback,
    so a later [disconnect] calls only [release].  A reply that settles
    [waitNextMessage], [waitNext] or [firstThenClose] leaves the reject
    function installed by the accessor in place, so a later [disconnect]
    still calls it with the disconnect error before it calls [release]. *)
Theorem rejection_callback_after_reply Ack p m error s :
  let err := match error with
             | Some e => e
             | None => RpcError "Connection closed"
             end in
  (onReplyCallback s = AckThenCloseListener p ->
   exists s', next Ack m s = Returned s'
     /\ rejected s' = None
     /\ trace (disconnect error s') = EvRelease :: trace s')
  /\ (forall l s',
   l = WaitNextMessageListener p
   \/ (exists T sc, l = WaitNextListener p T sc)
   \/ (exists T sc, l = FirstThenCloseListener p T sc) ->
   onReplyCallback s = l ->
   rejected s = Some (PromiseReject p) ->
   next Ack m s = Returned s' ->
   rejected s' = Some (PromiseReject p)
   /\ trace (disconnect error s') = EvRelease :: EvReject p err :: trace s').
Proof.
  intros err. subst err. split.
  - intros Hl. unfold next. rewrite Hl. cbn [invoke].
    reply_cases m; eexists; (split; [reflexivity|]); split;
      try (fields; reflexivity);
      unfold disconnect; fields; reflexivity.
  - intros l s' Hkind Hl Hr. unfold next. rewrite Hl.
    assert (Hafter : forall s1, rejected s1 = Some (PromiseReject p) ->
      trace (disconnect error s1)
      = EvRelease
        :: EvReject p match error with
                      | Some e => e
                      | None => RpcError "Connection closed"
                      end :: trace s1).
    { intros s1 H1. unfold disconnect. rewrite H1.
      destruct error; fields; reflexivity. }
    destruct Hkind as [-> | [(T & sc & ->) | (T & sc & ->)]]; cbn [invoke];
      try destruct sc as [sc|]; reply_cases m; intros [= <-];
      (split; [fields; exact Hr | apply Hafter; fields; exact Hr]).
Qed.

Lemma rejection_callback_after_reply_witness :
  let s := snd (waitNextMessage 0 constructor) in
  let s' := state_of (next 0 (reply 5 false) s) in
  rejected s' = Some (PromiseReject 0)
  /\ trace (disconnect None s')
     = EvRelease :: EvReject 0 (RpcError "Connection closed") :: trace s'.
Proof.
  intros s s'.
  destruct (rejection_callback_after_reply 0 0 (reply 5 false) None s)
    as (_ & Hkept).
  apply (Hkept (WaitNextMessageListener 0) s'); [by left | reflexivity..].
Defined.

(** ** After the handle has reached a terminal state *)

(** C6. Post-terminal deliveries.  After [disconnect] every [next] returns
    and leaves the state as it was: the reply is discarded.  After a reply has
    settled one of the four accessors, by a delivery to its waiting listener
    or by the replay of a buffered reply when the accessor is called, the bound
    default listener is back in place: every further [next] returns, stores
    the reply in the single slot and touches neither the promise store nor the
    trace, so the settled result is not invoked again. *)
Theorem post_terminal_delivery Ack m' :
  (forall error s,
      next Ack m' (disconnect error s) = Returned (disconnect error s))
  /\ (forall p l m s s1,
      accessor_listener p l = true ->
      onReplyCallback s = l ->
      next Ack m s = Returned s1 ->
      onReplyCallback s1 = CatchOnReplyCallback
      /\ next Ack m' s1 = Returned (set_uncatchedNext (Some m') s1)
      /\ promises (state_of (next Ack m' s1)) = promises s1
      /\ trace (state_of (next Ack m' s1)) = trace s1
      /\ uncatchedNext (state_of (next Ack m' s1)) = Some m')
  /\ (forall op m s,
      is_accessor op = true ->
      uncatchedNext s = Some m ->
      let s1 := state_of (step Ack op s) in
      onReplyCallback s1 = CatchOnReplyCallback
      /\ next Ack m' s1 = Returned (set_uncatchedNext (Some m') s1)
      /\ promises (state_of (next Ack m' s1)) = promises s1
      /\ trace (state_of (next Ack m' s1)) = trace s1
      /\ uncatchedNext (state_of (next Ack m' s1)) = Some m').
Proof.
  assert (Hdefault : forall s1,
    onReplyCallback s1 = CatchOnReplyCallback ->
    onReplyCallback s1 = CatchOnReplyCallback
    /\ next Ack m' s1 = Returned (set_uncatchedNext (Some m') s1)
    /\ promises (state_of (next Ack m' s1)) = promises s1
    /\ trace (state_of (next Ack m' s1)) = trace s1
    /\ uncatchedNext (state_of (next Ack m' s1)) = Some m').
  { intros s1 H1. split; [exact H1|].
    rewrite next_buffers by (by right). repeat split. }
  split; [|split].
  - reflexivity.
  - intros p l m s s1 Hacc Hl Hnext. apply Hdefault.
    unfold next in Hnext. rewrite Hl in Hnext.
    pose proof (invoke_accessor_restores Ack p l m s Hacc) as Hrestored.
    by rewrite Hnext in Hrestored.
  - intros op m s Hop Hbuf s1. subst s1. apply Hdefault.
    assert (Hexec : forall mk s0,
      (forall p, accessor_listener p (mk p) = true) ->
      uncatchedNext s0 = Some m ->
      onReplyCallback (snd (asyncOperation (executor Ack mk) s0))
      = CatchOnReplyCallback).
    { intros mk s0 Hmk Hb0. unfold asyncOperation, executor, onReply.
      cbn. rewrite Hb0.
      pose proof (invoke_accessor_restores Ack _ _ m
        (set_onReplyCallback (mk (length (promises s0)))
           (set_rejected (Some (PromiseReject (length (promises s0))))
              (set_promises (promises s0 ++ [Pending]) s0)))
        (Hmk (length (promises s0)))) as Hrestored.
      destruct (invoke _ _ _ _) as [s2 | e s2]; cbn in *.
      - exact Hrestored.
      - fields. exact Hrestored. }
    destruct op; try discriminate; cbn [step state_of];
      apply Hexec; try exact Hbuf; intros p; cbn; apply Nat.eqb_refl.
Qed.

Lemma post_terminal_delivery_witness :
  let s := snd (ackThenClose 0 constructor) in
  let s1 := state_of (next 0 (reply 0 false) s) in
  onReplyCallback s1 = CatchOnReplyCallback
  /\ next 0 (reply 5 false) s1
     = Returned (set_uncatchedNext (Some (reply 5 false)) s1)
  /\ promises (state_of (next 0 (reply 5 false) s1)) = promises s1
  /\ trace (state_of (next 0 (reply 5 false) s1)) = trace s1
  /\ uncatchedNext (state_of (next 0 (reply 5 false) s1))
     = Some (reply 5 false).
Proof.
  intros s s1.
  destruct (post_terminal_delivery 0 (reply 5 false)) as (_ & Hsettled & _).
  apply (Hsettled 0%nat (AckThenCloseListener 0) (reply 0 false) s s1);
    reflexivity.
Defined.

(** ** Body-parse errors *)

(** [firstThenClose] catches a parse error: the promise is rejected with it
    and [release] has been called once. *)
Lemma firstThenClose_parse_error Ack p T sc m e s :
  awaiting (FirstThenCloseListener p T (Some sc)) p s ->
  type m = T ->
  parseBody m sc = inl e ->
  exists s', next Ack m s = Returned s'
    /\ promises s' !! p = Some (Rejected e)
    /\ trace s' = EvReject p e :: EvRelease :: trace s.
Proof. intros [Hl Hp] Heq Hb. deliver Hl. settled Hp. Qed.

(** [waitNext] does not: the parse error leaves [next], and the promise stays
    pending. *)
Lemma waitNext_parse_error Ack p T sc m e s :
  awaiting (WaitNextListener p T (Some sc)) p s ->
  type m = T ->
  parseBody m sc = inl e ->
  exists s', next Ack m s = Thrown e s'
    /\ promises s' !! p = Some Pending
    /\ trace s' = trace s.
Proof.
  intros [Hl Hp] Heq Hb. deliver Hl.
  eexists. split; [reflexivity|]. split; [exact Hp | reflexivity].
Qed.

(** C8, at the failing input: [waitNext(5, schema)] is waiting and a reply of
    type 5 whose body does not decode is delivered.  The parse error is thrown
    out of [next] to the dispatcher; the promise is still pending and nothing
    was called. *)
Example waitNext_parse_error_escapes :
  let s := snd (waitNext 0 5 (Some sample_schema) constructor) in
  awaiting (WaitNextListener 0 5 (Some sample_schema)) 0 s
  /\ parseBody (malformed_reply 5) sample_schema = inl sample_parse_error
  /\ exists s', next 0 (malformed_reply 5) s = Thrown sample_parse_error s'
       /\ promises s' !! 0%nat = Some Pending
       /\ trace s' = trace s.
Proof.
  cbn zeta. split; [by split|]. split; [reflexivity|].
  eexists. split; [reflexivity|]. by split.
Qed.

(** ** How often release is called *)

Lemma run_app Ack ops ops' s :
  run Ack (ops ++ ops') s = run Ack ops' (run Ack ops s).
Proof. revert s. induction ops as [|op ops IH]; intros s; [done | apply IH]. Qed.

Lemma releases_disconnect error s :
  releases (disconnect error s) = S (releases s).
Proof.
  unfold disconnect. rewrite releases_release. f_equal.
  destruct (rejected s) as [r|]; [|reflexivity].
  exact (releases_call_rejecter r _ s).
Qed.

(** C1 (as amended). [release] is neither guarded against repetition nor
    called on every terminal path.  Each [disconnect] calls it exactly once,
    so a sequence of calls that ends in [disconnect] has called it once more
    than the sequence before that [disconnect], hence at least once, and a
    sequence that ends in two [disconnect] calls has called it twice more.  A
    reply delivered to a waiting [ackThenClose] calls it exactly once.  A
    reply delivered to a waiting [firstThenClose(T)] calls it at least once,
    and exactly once when the reply is of type [T] or is not error-tagged.  A
    reply delivered to a waiting [waitNext(T)] calls it exactly once when the
    reply is error-tagged and of another type than [T], and not at all
    otherwise.  A reply delivered to a waiting [waitNextMessage] does not call
    it.  On a fresh handle: an accessor followed by [disconnect],
    [ackThenClose] followed by a reply, and [firstThenClose(T)] followed by a
    reply of type [T] or not error-tagged each call [release] exactly once;
    [waitNextMessage] followed by a reply calls it zero times; [waitNext(T)]
    followed by a reply calls it once when the reply is error-tagged and of
    another type, and zero times otherwise. *)
Theorem release_at_terminal_transition Ack :
  (forall ops error s,
      releases (run Ack (ops ++ [OpDisconnect error]) s)
      = S (releases (run Ack ops s)))
  /\ (forall ops error,
      (1 <= releases (run Ack (ops ++ [OpDisconnect error]) constructor))%nat)
  /\ (forall p m s,
      onReplyCallback s = AckThenCloseListener p ->
      releases (state_of (next Ack m s)) = S (releases s))
  /\ (forall p T sc m s,
      onReplyCallback s = FirstThenCloseListener p T sc ->
      type m = T \/ isError m = false ->
      releases (state_of (next Ack m s)) = S (releases s))
  /\ (forall op error,
      is_accessor op = true ->
      releases (run Ack [op; OpDisconnect error] constructor) = 1%nat)
  /\ (forall m,
      releases (run Ack [OpAckThenClose; OpNext m] constructor) = 1%nat)
  /\ (forall T sc m,
      type m = T \/ isError m = false ->
      releases (run Ack [OpFirstThenClose T sc; OpNext m] constructor) = 1%nat)
  /\ (forall ops error1 error2 s,
      releases (run Ack (ops ++ [OpDisconnect error1; OpDisconnect error2]) s)
      = S (S (releases (run Ack ops s))))
  /\ (forall p T sc m s,
      onReplyCallback s = FirstThenCloseListener p T sc ->
      (releases s < releases (state_of (next Ack m s)))%nat)
  /\ (forall p T sc m s,
      onReplyCallback s = WaitNextListener p T sc ->
      releases (state_of (next Ack m s))
      = if negb (type m =? T) && isError m then S (releases s) else releases s)
  /\ (forall p m s,
      onReplyCallback s = WaitNextMessageListener p ->
      releases (state_of (next Ack m s)) = releases s)
  /\ (forall m,
      releases (run Ack [OpWaitNextMessage; OpNext m] constructor) = 0%nat)
  /\ (forall T sc m,
      releases (run Ack [OpWaitNext T sc; OpNext m] constructor)
      = if negb (type m =? T) && isError m then 1%nat else 0%nat).
Proof.
  assert (Hlast : forall ops error s,
    releases (run Ack (ops ++ [OpDisconnect error]) s)
    = S (releases (run Ack ops s))).
  { intros ops error s. rewrite run_app. cbn. apply releases_disconnect. }
  assert (Hack : forall p m s,
    onReplyCallback s = AckThenCloseListener p ->
    releases (state_of (next Ack m s)) = S (releases s)).
  { intros p m s Hl. unfold next. rewrite Hl. cbn [invoke].
    reply_cases m; cbn [state_of];
      rewrite ?releases_resolve, ?releases_reject; reflexivity. }
  assert (Hfirst : forall p T sc m s,
    onReplyCallback s = FirstThenCloseListener p T sc ->
    type m = T \/ isError m = false ->
    releases (state_of (next Ack m s)) = S (releases s)).
  { intros p T sc m s Hl Hm. unfold next. rewrite Hl. cbn [invoke].
    destruct (Z.eqb_spec (type m) T) as [Heq|Hne].
    - destruct sc as [sc|]; [destruct (parseBody m sc)|]; cbn [state_of];
        rewrite ?releases_resolve, ?releases_reject; reflexivity.
    - destruct Hm as [Heq | He]; [done|]. rewrite He. cbn [state_of].
      rewrite releases_reject. reflexivity. }
  assert (Hwait : forall p T sc m s,
    onReplyCallback s = WaitNextListener p T sc ->
    releases (state_of (next Ack m s))
    = if negb (type m =? T) && isError m then S (releases s) else releases s).
  { intros p T sc m s Hl. unfold next. rewrite Hl. cbn [invoke].
    destruct (type m =? T); cbn [negb andb].
    - destruct sc as [sc|]; [destruct (parseBody m sc)|]; cbn [state_of];
        rewrite ?releases_resolve; reflexivity.
    - destruct (isError m); cbn [state_of]; rewrite releases_reject;
        reflexivity. }
  assert (Hmessage : forall p m s,
    onReplyCallback s = WaitNextMessageListener p ->
    releases (state_of (next Ack m s)) = releases s).
  { intros p m s Hl. unfold next. rewrite Hl. cbn [invoke state_of].
    by rewrite releases_resolve. }
  split; [exact Hlast|].
  split; [intros ops error; rewrite (Hlast ops error constructor); lia|].
  split; [exact Hack|].
  split; [exact Hfirst|].
  split.
  { intros op error Hop.
    destruct op; try discriminate; cbn [run step state_of];
      rewrite releases_disconnect; reflexivity. }
  split; [intros m; cbn [run step]; apply (Hack 0%nat); reflexivity|].
  split.
  { intros T sc m Hm. cbn [run step].
    apply (Hfirst 0%nat T sc); [reflexivity | exact Hm]. }
  split.
  { intros ops error1 error2 s.
    change [OpDisconnect error1; OpDisconnect error2]
      with ([OpDisconnect error1] ++ [OpDisconnect error2]).
    by rewrite app_assoc, !Hlast. }
  split.
  { intros p T sc m s Hl. unfold next. rewrite Hl. cbn [invoke].
    destruct sc as [sc|]; reply_cases m; cbn [state_of];
      unfold releases, resolve, reject, release; fields; lia. }
  split; [exact Hwait|].
  split; [exact Hmessage|].
  split.
  - intros m. cbn [run step]. apply (Hmessage 0%nat). reflexivity.
  - intros T sc m. cbn [run step]. apply (Hwait 0%nat T sc). reflexivity.
Qed.

Lemma release_at_terminal_transition_witness :
  releases (run 0 [OpFirstThenClose 7 None; OpNext (reply 99 false)] constructor)
  = 1%nat.
Proof.
  destruct (release_at_terminal_transition 0)
    as (_ & _ & _ & _ & _ & _ & Hfirst & _).
  apply Hfirst. right. reflexivity.
Defined.

(** C1, the claim as written fails in both directions: each of these
    sequences ends in a terminal state, and [release] has been called twice
    in the first three and not at all in the last three.  In the first,
    [firstThenClose(7)] receives an error-tagged reply of another type; in the
    second, [disconnect] is called twice; in the third, [disconnect] follows
    the acknowledgement that settled [ackThenClose].  In the fourth,
    [waitNext(7)] is resolved by a reply of type 7; in the fifth it is
    rejected by a plain reply of type 99; in the sixth, [waitNextMessage] is
    resolved by a reply. *)
Lemma release_not_exactly_once :
  releases (run 0 [OpFirstThenClose 7 None; OpNext (reply 1 true)] constructor)
  = 2%nat
  /\ releases (run 0 [OpDisconnect None; OpDisconnect None] constructor) = 2%nat
  /\ releases (run 0 [OpAckThenClose; OpNext (reply 0 false); OpDisconnect None]
                 constructor) = 2%nat
  /\ (let s := run 0 [OpWaitNext 7 None; OpNext (reply 7 false)] constructor in
      promises s !! 0%nat = Some (Resolved Undefined) /\ releases s = 0%nat)
  /\ (let s := run 0 [OpWaitNext 7 None; OpNext (reply 99 false)] constructor in
      promises s !! 0%nat
      = Some (Rejected (UnexpectedMessageType
                          "Expected message type 7, but received 99"))
      /\ releases s = 0%nat)
  /\ (let s := run 0 [OpWaitNextMessage; OpNext (reply 5 false)] constructor in
      promises s !! 0%nat = Some (Resolved (MessageValue (reply 5 false)))
      /\ releases s = 0%nat).
Proof. repeat split. Qed.

(** * Further properties of the handle *)

(** ** Commutation of the setters with [settle] *)

Lemma settle_set_uncatchedNext p r o s :
  settle p r (set_uncatchedNext o s) = set_uncatchedNext o (settle p r s).
Proof. unfold settle. cbn. by destruct (promises s !! p) as [[| |]|]. Qed.

Lemma promises_settle_length p r s :
  length (promises (settle p r s)) = length (promises s).
Proof.
  unfold settle. destruct (promises s !! p) as [[| |]|]; try done.
  cbn. apply length_insert.
Qed.

(** ** What one call adds to the trace *)

(** The trace of a state after the handle's own assignments and settlements,
    as a list of events in front of the trace before. *)
Ltac traces := unfold resolve, reject, release; fields.

Lemma continuation_calls_invoke Ack l m s :
  continuation_calls (trace (state_of (invoke Ack l m s)))
  = continuation_calls (trace s).
Proof.
  destruct l as [| | | |q|q|q T [sc|]|q T [sc|]]; cbn [invoke];
    reply_cases m; cbn [state_of]; traces; reflexivity.
Qed.

Lemma continuation_calls_onReply Ack l s :
  continuation_calls (trace (state_of (onReply Ack l s)))
  = continuation_calls (trace s).
Proof.
  unfold onReply. cbn. destruct (uncatchedNext s) as [m|]; [|reflexivity].
  pose proof (continuation_calls_invoke Ack l m (set_onReplyCallback l s)) as H.
  destruct (invoke _ _ _ _); exact H.
Qed.

Lemma continuation_calls_asyncOperation Ack mk s :
  continuation_calls (trace (snd (asyncOperation (executor Ack mk) s)))
  = continuation_calls (trace s).
Proof.
  unfold asyncOperation, executor.
  match goal with |- context [onReply Ack ?l ?s0] =>
    pose proof (continuation_calls_onReply Ack l s0) as H;
    destruct (onReply Ack l s0) end; cbn in *; [exact H|].
  traces. exact H.
Qed.

Lemma continuation_calls_disconnect error s :
  continuation_calls (trace (disconnect error s))
  = continuation_calls (trace s).
Proof.
  unfold disconnect. destruct (rejected s) as [[q|id]|]; traces; reflexivity.
Qed.

(** X1. [continuation] is called by [send] and by nothing else: after any
    sequence of calls the continuation has received the arguments of the
    [send] calls of the sequence, each once and in order, whatever state the
    handle was in (waiting, settled or disconnected). *)
Theorem send_reaches_continuation Ack ops s :
  continuation_calls (trace (run Ack ops s))
  = rev (sent ops) ++ continuation_calls (trace s).
Proof.
  revert s. induction ops as [|op ops IH]; intros s; [reflexivity|].
  cbn [run]. rewrite IH.
  assert (Hstep : continuation_calls (trace (state_of (step Ack op s)))
                  = sent [op] ++ continuation_calls (trace s)).
  { destruct op; cbn [step sent state_of app]; try reflexivity;
      first [ apply continuation_calls_invoke
            | apply continuation_calls_disconnect
            | apply continuation_calls_onReply
            | apply continuation_calls_asyncOperation ]. }
  rewrite Hstep. destruct op; cbn [sent rev app]; try reflexivity.
  by rewrite <- app_assoc.
Qed.

(** ** The single buffer slot *)

Lemma run_deliveries_buffered Ack ms s :
  onReplyCallback s = OnReplyCallbackMethod
  \/ onReplyCallback s = CatchOnReplyCallback ->
  run Ack (map OpNext ms) s
  = match last ms with
    | Some m => set_uncatchedNext (Some m) s
    | None => s
    end.
Proof.
  revert s. induction ms as [|a ms IH]; intros s Hl; [reflexivity|].
  cbn [map run step]. rewrite next_buffers by exact Hl. cbn [state_of].
  rewrite IH by exact Hl. destruct ms as [|b ms]; [reflexivity|].
  change (last (a :: b :: ms)) with (last (b :: ms)).
  destruct (last (b :: ms)) eqn:Hlast; [reflexivity|].
  by apply last_None in Hlast.
Qed.

(** X2. The buffer holds one reply.  Replies delivered while a default
    listener is in place overwrite one another without any call being made:
    after the deliveries [ms] and then [m], only [m] is buffered, and the next
    [onReply(f)] calls [f] once, with [m]; the replies [ms] are lost. *)
Theorem buffer_keeps_last Ack ms m f s :
  onReplyCallback s = OnReplyCallbackMethod
  \/ onReplyCallback s = CatchOnReplyCallback ->
  let s' := run Ack (map OpNext (ms ++ [m])) s in
  uncatchedNext s' = Some m
  /\ trace s' = trace s
  /\ promises s' = promises s
  /\ trace (state_of (onReply Ack (ReplyCallback f) s'))
     = EvReplyCallback f m :: trace s.
Proof.
  intros Hl s'. subst s'. rewrite run_deliveries_buffered by exact Hl.
  rewrite last_snoc. repeat split.
Qed.

Lemma buffer_keeps_last_witness :
  let s' := run 0 (map OpNext ([reply 1 false; reply 2 false] ++ [reply 3 false]))
              constructor in
  uncatchedNext s' = Some (reply 3 false)
  /\ trace s' = trace constructor
  /\ promises s' = promises constructor
  /\ trace (state_of (onReply 0 (ReplyCallback 8) s'))
     = EvReplyCallback 8 (reply 3 false) :: trace constructor.
Proof.
  apply (buffer_keeps_last 0 [reply 1 false; reply 2 false] (reply 3 false) 8
           constructor).
  left. reflexivity.
Defined.

(** ** Replay of a buffered reply by an accessor *)

Lemma invoke_set_uncatchedNext Ack l m o s :
  is_Some (listener_promise l) ->
  invoke Ack l m (set_uncatchedNext o s)
  = match invoke Ack l m s with
    | Returned s1 => Returned (set_uncatchedNext o s1)
    | Thrown e s1 => Thrown e (set_uncatchedNext o s1)
    end.
Proof.
  intros [q Hq].
  destruct l as [| | | |p|p|p T [sc|]|p T [sc|]]; try discriminate;
    cbn [invoke]; reply_cases m;
    unfold resolve, reject, release, settle; cbn;
    destruct (promises s !! p) as [[| |]|]; reflexivity.
Qed.

(** X3. An accessor called while a reply is buffered ends in the state it
    would reach if it were called with the slot empty and the same reply were
    delivered next, whenever that delivery returns. *)
Theorem replay_is_late_delivery Ack op m s s' :
  is_accessor op = true ->
  uncatchedNext s = Some m ->
  next Ack m (state_of (step Ack op (set_uncatchedNext None s))) = Returned s' ->
  step Ack op s = Returned s'.
Proof.
  intros Hop Hb.
  assert (Hexec : forall mk,
    (forall p, is_Some (listener_promise (mk p))) ->
    next Ack m (snd (asyncOperation (executor Ack mk) (set_uncatchedNext None s)))
    = Returned s' ->
    snd (asyncOperation (executor Ack mk) s) = s').
  { intros mk Hmk. unfold asyncOperation, executor, onReply, next. cbn.
    rewrite Hb.
    set (p := length (promises s)).
    set (base := set_onReplyCallback (mk p)
                   (set_rejected (Some (PromiseReject p))
                      (set_promises (promises s ++ [Pending]) s))).
    change (set_onReplyCallback (mk p)
              (set_rejected (Some (PromiseReject p))
                 (set_promises (promises s ++ [Pending])
                    (set_uncatchedNext None s))))
      with (set_uncatchedNext None base).
    rewrite invoke_set_uncatchedNext by apply Hmk.
    destruct (invoke Ack (mk p) m base) as [s1 | e s1]; by intros [= <-]. }
  destruct op; try discriminate; cbn [step state_of]; intros Hlate;
    f_equal; apply Hexec; try exact Hlate; intros p; by eexists.
Qed.

Lemma replay_is_late_delivery_witness :
  let s := set_uncatchedNext (Some (reply 7 false)) constructor in
  step 0 (OpFirstThenClose 7 None) s
  = next 0 (reply 7 false)
      (state_of (step 0 (OpFirstThenClose 7 None) (set_uncatchedNext None s))).
Proof.
  intros s.
  apply (replay_is_late_delivery 0 (OpFirstThenClose 7 None) (reply 7 false) s);
    reflexivity.
Defined.

(** X4. A buffered reply whose body does not decode stays buffered when
    [waitNext] replays it: the exception leaves [onReply] before the slot is
    cleared.  The promise is rejected with the parse error, the bound default
    listener is in place, and the following accessor replays the same reply
    again ([waitNextMessage] resolves with it at once).  [firstThenClose]
    catches the error and the slot is cleared. *)
Theorem waitNext_keeps_malformed_reply Ack T sc m e s :
  uncatchedNext s = Some m ->
  type m = T ->
  parseBody m sc = inl e ->
  let p := length (promises s) in
  let s1 := snd (waitNext Ack T (Some sc) s) in
  let s2 := snd (waitNextMessage Ack s1) in
  onReply Ack (WaitNextListener p T (Some sc)) s
    = Thrown e (set_onReplyCallback CatchOnReplyCallback s)
  /\ promises s1 !! p = Some (Rejected e)
  /\ uncatchedNext s1 = Some m
  /\ onReplyCallback s1 = CatchOnReplyCallback
  /\ trace s1 = EvReject p e :: trace s
  /\ promises s2 !! S p = Some (Resolved (MessageValue m))
  /\ uncatchedNext s2 = None
  /\ uncatchedNext (snd (firstThenClose Ack T (Some sc) s)) = None.
Proof.
  intros Hb Heq Hp p s1 s2. subst p s1 s2.
  assert (Hz : (type m =? T) = true) by by apply Z.eqb_eq.
  unfold waitNext, waitNextMessage, firstThenClose, asyncOperation, executor,
    onReply.
  cbn. rewrite Hb. cbn. rewrite Hz, Hp. cbn.
  unfold reject, resolve, settle. cbn.
  rewrite list_lookup_middle by done. cbn. rewrite Hb. cbn.
  rewrite length_insert, length_app. cbn.
  replace (length (promises s) + 1)%nat with (S (length (promises s))) by lia.
  rewrite !list_lookup_middle by (by rewrite ?length_insert, ?length_app; cbn; lia).
  cbn. repeat split.
  - rewrite list_lookup_insert_eq; [done|]. rewrite length_app. cbn. lia.
  - rewrite list_lookup_insert_eq; [done|].
    rewrite length_app, length_insert, length_app. cbn. lia.
Qed.

Lemma waitNext_keeps_malformed_reply_witness :
  let s := set_uncatchedNext (Some (malformed_reply 5)) constructor in
  let s1 := snd (waitNext 0 5 (Some sample_schema) s) in
  promises s1 !! 0%nat = Some (Rejected sample_parse_error)
  /\ uncatchedNext s1 = Some (malformed_reply 5)
  /\ promises (snd (waitNextMessage 0 s1)) !! 1%nat
     = Some (Resolved (MessageValue (malformed_reply 5))).
Proof.
  intros s s1.
  destruct (waitNext_keeps_malformed_reply 0 5 sample_schema (malformed_reply 5)
              sample_parse_error s)
    as (_ & Hrejected & Hkept & _ & _ & Hreplayed & _); try reflexivity.
  repeat split; assumption.
Defined.

(** ** Calling an accessor with the slot empty *)

(** The state an accessor leaves when nothing is buffered. *)
Lemma accessor_step Ack op s :
  is_accessor op = true ->
  uncatchedNext s = None ->
  exists l,
    listener_promise l = Some (length (promises s))
    /\ step Ack op s
       = Returned {| uncatchedNext := None; onReplyCallback := l;
                     rejected := Some (PromiseReject (length (promises s)));
                     promises := promises s ++ [Pending]; trace := trace s |}.
Proof.
  intros Hop Hb.
  destruct op; try discriminate; cbn [step];
    unfold ackThenClose, waitNextMessage, waitNext, firstThenClose,
      asyncOperation, executor, onReply; cbn; rewrite Hb; cbn;
    match goal with |- context [set_onReplyCallback ?l _] => exists l end;
    (split; [reflexivity|]);
    unfold set_onReplyCallback, set_rejected, set_promises; cbn;
    rewrite Hb; reflexivity.
Qed.

(** ** Promises the handle no longer refers to *)

(** Unfold the handle's own steps in a goal about [detached] and the promise
    store, and step over settlements of other promises. *)
Ltac frame_promise :=
  unfold detached, resolve, reject, release in *; cbn in *;
  autorewrite with subject; cbn;
  rewrite ?promises_settle_length, ?settle_other by congruence.

Lemma detached_invoke Ack p l m s :
  listener_promise l <> Some p ->
  detached p s ->
  detached p (state_of (invoke Ack l m s))
  /\ promises (state_of (invoke Ack l m s)) !! p = promises s !! p.
Proof.
  intros Hl (Hs & Hr & Hlen).
  destruct l as [| | | |q|q|q T [sc|]|q T [sc|]]; cbn [invoke];
    reply_cases m; cbn [state_of]; frame_promise;
    repeat split; (done || congruence).
Qed.

Lemma detached_onReply Ack p l s :
  listener_promise l <> Some p ->
  detached p s ->
  detached p (state_of (onReply Ack l s))
  /\ promises (state_of (onReply Ack l s)) !! p = promises s !! p.
Proof.
  intros Hl (Hs & Hr & Hlen). unfold onReply.
  assert (Hd : detached p (set_onReplyCallback l s)) by (by repeat split).
  cbn [uncatchedNext set_onReplyCallback].
  destruct (uncatchedNext s) as [m|]; [|by split].
  pose proof (detached_invoke Ack p l m _ Hl Hd) as [Hd' Hp'].
  destruct (invoke _ _ _ _) as [s1|e s1]; cbn in *; [|by split].
  split; [exact Hd' | exact Hp'].
Qed.

Lemma detached_disconnect p error s :
  detached p s ->
  detached p (disconnect error s)
  /\ promises (disconnect error s) !! p = promises s !! p.
Proof.
  intros (Hs & Hr & Hlen). unfold disconnect.
  destruct (rejected s) as [[q|id]|] eqn:Hrej; frame_promise;
    repeat split; (done || congruence).
Qed.

Lemma detached_asyncOperation Ack p mk s :
  (forall q, listener_promise (mk q) = Some q) ->
  detached p s ->
  detached p (snd (asyncOperation (executor Ack mk) s))
  /\ promises (snd (asyncOperation (executor Ack mk) s)) !! p = promises s !! p.
Proof.
  intros Hmk (Hs & Hr & Hlen). unfold asyncOperation, executor.
  set (q := length (promises s)).
  assert (Hq : q <> p) by (subst q; lia).
  set (s0 := set_rejected (Some (PromiseReject q))
               (set_promises (promises s ++ [Pending]) s)).
  assert (Hd0 : detached p s0).
  { repeat split; cbn; [done | congruence | rewrite length_app; lia]. }
  assert (Hp0 : promises s0 !! p = promises s !! p).
  { cbn. by apply lookup_app_l. }
  assert (Hl : listener_promise (mk q) <> Some p) by (rewrite Hmk; congruence).
  pose proof (detached_onReply Ack p (mk q) s0 Hl Hd0) as [Hd1 Hp1].
  destruct (onReply Ack (mk q) s0) as [s1|e s1]; cbn [snd state_of] in *.
  - split; [exact Hd1 | congruence].
  - destruct Hd1 as (? & ? & ?). frame_promise.
    repeat split; (done || congruence).
Qed.

Lemma detached_step Ack p op s :
  detached p s ->
  detached p (state_of (step Ack op s))
  /\ promises (state_of (step Ack op s)) !! p = promises s !! p.
Proof.
  intros Hd. destruct op; cbn [step state_of].
  - destruct Hd as (? & ? & ?). by repeat split.
  - apply detached_invoke; [apply Hd | exact Hd].
  - by apply detached_disconnect.
  - destruct Hd as (? & ? & ?). by repeat split.
  - by apply detached_onReply.
  - by apply detached_asyncOperation.
  - by apply detached_asyncOperation.
  - by apply detached_asyncOperation.
  - by apply detached_asyncOperation.
Qed.

(** A promise the handle does not refer to keeps its state whatever is called
    afterwards. *)
Lemma detached_run Ack p ops s :
  detached p s ->
  detached p (run Ack ops s)
  /\ promises (run Ack ops s) !! p = promises s !! p.
Proof.
  revert s. induction ops as [|op ops IH]; intros s Hd; [by split|].
  cbn [run]. destruct (detached_step Ack p op s Hd) as [Hd1 Hp1].
  destruct (IH _ Hd1) as [Hd2 Hp2]. split; [exact Hd2 | congruence].
Qed.

(** X5. One wait at a time.  When an accessor is called while another one is
    still waiting, the new listener and reject function replace the old ones,
    and the promise of the first accessor stays pending whatever is called
    afterwards: no reply and no [disconnect] settles it. *)
Theorem superseded_accessor_never_settles Ack op1 op2 ops s :
  is_accessor op1 = true ->
  is_accessor op2 = true ->
  uncatchedNext s = None ->
  promises (run Ack (op1 :: op2 :: ops) s) !! length (promises s)
  = Some Pending.
Proof.
  intros H1 H2 Hb. cbn [run].
  destruct (accessor_step Ack op1 s H1 Hb) as (l1 & Hl1 & ->). cbn [state_of].
  set (s1 := {| uncatchedNext := None; onReplyCallback := l1;
                rejected := Some (PromiseReject (length (promises s)));
                promises := promises s ++ [Pending]; trace := trace s |}).
  destruct (accessor_step Ack op2 s1 H2 eq_refl) as (l2 & Hl2 & ->).
  cbn [state_of promises s1] in *.
  match goal with |- promises (run Ack ops ?x) !! _ = _ => set (s2 := x) end.
  assert (Hd : detached (length (promises s)) s2).
  { subst s2. repeat split; cbn.
    - rewrite Hl2, length_app. cbn. intros [= ?]. lia.
    - rewrite length_app. cbn. intros [= ?]. lia.
    - rewrite !length_app. cbn. lia. }
  destruct (detached_run Ack _ ops s2 Hd) as [_ ->].
  subst s2. cbn. rewrite lookup_app_l by (rewrite length_app; cbn; lia).
  by apply list_lookup_middle.
Qed.

Lemma superseded_accessor_never_settles_witness :
  promises (run 0 [OpWaitNext 5 None; OpWaitNextMessage; OpNext (reply 5 false);
                   OpDisconnect None] constructor) !! 0%nat
  = Some Pending.
Proof.
  apply (superseded_accessor_never_settles 0 (OpWaitNext 5 None)
           OpWaitNextMessage [OpNext (reply 5 false); OpDisconnect None]
           constructor); reflexivity.
Defined.

(** X6. [onRejected] called while an accessor waits replaces the accessor's
    reject function.  A [disconnect] then calls the new callback, once, with
    the disconnect error, and [release]; the accessor's promise is not
    rejected and stays pending whatever is called afterwards. *)
Theorem onRejected_detaches_accessor Ack op id error ops s :
  is_accessor op = true ->
  uncatchedNext s = None ->
  trace (run Ack [op; OpOnRejected id; OpDisconnect error] s)
  = EvRelease
    :: EvRejectedCallback id
         match error with
         | Some e => e
         | None => RpcError "Connection closed"
         end
    :: trace s
  /\ promises (run Ack (op :: OpOnRejected id :: OpDisconnect error :: ops) s)
       !! length (promises s)
     = Some Pending.
Proof.
  intros Hop Hb. cbn [run].
  destruct (accessor_step Ack op s Hop Hb) as (l & Hl & ->).
  cbn [state_of step]. split.
  - unfold disconnect, onRejected. cbn. by destruct error.
  - match goal with |- promises (run Ack ops ?x) !! _ = _ => set (s3 := x) end.
    assert (Hd : detached (length (promises s)) s3).
    { subst s3. unfold disconnect, onRejected. cbn.
      repeat split; cbn; [done | done | rewrite length_app; cbn; lia]. }
    destruct (detached_run Ack _ ops s3 Hd) as [_ ->].
    subst s3. unfold disconnect, onRejected. cbn.
    by apply list_lookup_middle.
Qed.

Lemma onRejected_detaches_accessor_witness :
  promises (run 0 [OpFirstThenClose 7 None; OpOnRejected 4; OpDisconnect None;
                   OpNext (reply 7 false)] constructor) !! 0%nat
  = Some Pending.
Proof.
  destruct (onRejected_detaches_accessor 0 (OpFirstThenClose 7 None) 4 None
              [OpNext (reply 7 false)] constructor) as [_ Hpending];
    [reflexivity.. | exact Hpending].
Defined.

(** ** One round of waitNextMessage *)

(** With the slot empty, [waitNextMessage()] followed by the delivery of [m]
    appends a promise resolved with [m]. *)
Lemma request_reply_round Ack m s :
  uncatchedNext s = None ->
  run Ack [OpWaitNextMessage; OpNext m] s
  = {| uncatchedNext := None; onReplyCallback := CatchOnReplyCallback;
       rejected := Some (PromiseReject (length (promises s)));
       promises := promises s ++ [Resolved (MessageValue m)];
       trace := EvResolve (length (promises s)) (MessageValue m) :: trace s |}.
Proof.
  intros Hb. cbn [run step state_of].
  unfold next, waitNextMessage, asyncOperation, executor, onReply.
  cbn. rewrite Hb. cbn. unfold resolve, settle. cbn.
  rewrite list_lookup_middle by done. cbn.
  rewrite insert_app_r_alt by done. rewrite Nat.sub_diag.
  unfold log, set_promises, set_onReplyCallback, set_rejected. cbn.
  by rewrite Hb.
Qed.

(** ** After disconnect *)

Lemma run_after_disconnect Ack ops s :
  forallb by_dispatcher ops = true ->
  rejected s = None ->
  onReplyCallback s = Noop ->
  run Ack ops s
  = {| uncatchedNext := uncatchedNext s; onReplyCallback := Noop;
       rejected := None; promises := promises s;
       trace := replicate (disconnects ops) EvRelease ++ trace s |}.
Proof.
  revert s. induction ops as [|op ops IH]; intros s Hops Hr Hl.
  - cbn. destruct s; cbn in *. by subst.
  - cbn [forallb] in Hops. apply andb_prop in Hops as [Hop Hops].
    destruct op; try discriminate; cbn [run step disconnects].
    + unfold next. rewrite Hl. cbn [invoke state_of]. by apply IH.
    + cbn [state_of]. rewrite IH; [|done|by unfold disconnect; rewrite Hr..].
      unfold disconnect. rewrite Hr. cbn -[replicate]. f_equal.
      by rewrite replicate_S_end, <- app_assoc.
Qed.

(** X7. After a [disconnect] the dispatcher's calls have one effect only:
    each further [disconnect] calls [release] once more.  No rejection
    callback is called again, replies are dropped, and the promise store, the
    buffer and the listener stay as the first [disconnect] left them. *)
Theorem dispatcher_calls_after_disconnect Ack error ops s :
  forallb by_dispatcher ops = true ->
  let s1 := disconnect error s in
  let s2 := run Ack ops s1 in
  trace s2 = replicate (disconnects ops) EvRelease ++ trace s1
  /\ promises s2 = promises s1
  /\ uncatchedNext s2 = uncatchedNext s1
  /\ onReplyCallback s2 = Noop
  /\ rejected s2 = None.
Proof.
  intros Hops s1 s2. subst s2.
  assert (Hr : rejected s1 = None).
  { subst s1. unfold disconnect. by destruct (rejected s) as [[q|id]|] eqn:E. }
  assert (Hl : onReplyCallback s1 = Noop).
  { subst s1. unfold disconnect. by destruct (rejected s) as [[q|id]|]. }
  rewrite (run_after_disconnect Ack ops s1 Hops Hr Hl). by repeat split.
Qed.

Lemma dispatcher_calls_after_disconnect_witness :
  let s1 := disconnect None (snd (waitNextMessage 0 constructor)) in
  trace (run 0 [OpDisconnect None; OpNext (reply 5 false); OpDisconnect None] s1)
  = [EvRelease; EvRelease] ++ trace s1.
Proof.
  intros s1.
  destruct (dispatcher_calls_after_disconnect 0 None
              [OpDisconnect None; OpNext (reply 5 false); OpDisconnect None]
              (snd (waitNextMessage 0 constructor)) eq_refl) as [Htrace _].
  exact Htrace.
Defined.

(** X8. [disconnect] does not close the handle for good: an accessor called
    afterwards installs its listener over [noop], and the next reply settles
    it as usual. *)
Theorem accessor_after_disconnect Ack error m s :
  uncatchedNext s = None ->
  let p := length (promises s) in
  let s' := run Ack [OpDisconnect error; OpWaitNextMessage; OpNext m] s in
  promises s' !! p = Some (Resolved (MessageValue m))
  /\ onReplyCallback s' = CatchOnReplyCallback
  /\ rejected s' = Some (PromiseReject p).
Proof.
  intros Hb p s'. subst p s'.
  assert (Hb1 : uncatchedNext (disconnect error s) = None).
  { unfold disconnect. destruct (rejected s) as [[q|id]|]; by fields. }
  assert (Hlen : length (promises (disconnect error s)) = length (promises s)).
  { unfold disconnect, call_rejecter, reject.
    destruct (rejected s) as [[q|id]|]; cbn; by rewrite ?promises_settle_length. }
  change (run Ack [OpDisconnect error; OpWaitNextMessage; OpNext m] s)
    with (run Ack [OpWaitNextMessage; OpNext m] (disconnect error s)).
  rewrite (request_reply_round Ack m _ Hb1).
  cbn [promises onReplyCallback rejected]. rewrite Hlen.
  repeat split. rewrite <- Hlen. by apply list_lookup_middle.
Qed.

Lemma accessor_after_disconnect_witness :
  promises (run 0 [OpDisconnect None; OpWaitNextMessage; OpNext (reply 5 false)]
              constructor) !! 0%nat
  = Some (Resolved (MessageValue (reply 5 false))).
Proof.
  destruct (accessor_after_disconnect 0 None (reply 5 false) constructor eq_refl)
    as [Hresolved _].
  exact Hresolved.
Defined.

(** ** Using the handle for a stream of replies *)

(** X10. [waitNextMessage] can be used again and again on one handle: when
    each call is followed by the delivery of one reply, every call's promise
    is resolved with its own reply, in order; earlier promises are left as
    they are, [release] is never called and the slot is empty at the end. *)
Theorem request_then_reply_resolves_each Ack ms s :
  uncatchedNext s = None ->
  let s' := run Ack (request_then_reply ms) s in
  promises s' = promises s ++ map (fun m => Resolved (MessageValue m)) ms
  /\ releases s' = releases s
  /\ uncatchedNext s' = None.
Proof.
  revert s. induction ms as [|m ms IH]; intros s Hb.
  - cbn. by rewrite app_nil_r.
  - cbn zeta.
    change (request_then_reply (m :: ms))
      with ([OpWaitNextMessage; OpNext m] ++ request_then_reply ms).
    rewrite run_app, (request_reply_round Ack m s Hb).
    match goal with |- context [run Ack _ ?x] =>
      destruct (IH x eq_refl) as (Hp & Hr & Hn) end.
    rewrite Hp, Hr, Hn. cbn. by rewrite <- app_assoc.
Qed.

Lemma request_then_reply_resolves_each_witness :
  promises (run 0 (request_then_reply [reply 5 false; reply 1 true]) constructor)
  = [Resolved (MessageValue (reply 5 false));
     Resolved (MessageValue (reply 1 true))].
Proof.
  destruct (request_then_reply_resolves_each 0 [reply 5 false; reply 1 true]
              constructor eq_refl) as [Hpromises _].
  exact Hpromises.
Defined.

Lemma keeps_open_invoke Ack l m s :
  never_releases l = true ->
  releases (state_of (invoke Ack l m s)) = releases s
  /\ (never_releases (onReplyCallback s) = true ->
      never_releases (onReplyCallback (state_of (invoke Ack l m s))) = true).
Proof.
  destruct l; try discriminate; intros _; cbn [invoke state_of];
    unfold releases; traces; by split.
Qed.

Lemma keeps_open_onReply Ack l s :
  never_releases l = true ->
  releases (state_of (onReply Ack l s)) = releases s
  /\ never_releases (onReplyCallback (state_of (onReply Ack l s))) = true.
Proof.
  intros Hl. unfold onReply. cbn [uncatchedNext set_onReplyCallback].
  destruct (uncatchedNext s) as [m|]; [|by split].
  destruct (keeps_open_invoke Ack l m (set_onReplyCallback l s) Hl) as [Hr Hn].
  specialize (Hn Hl).
  destruct (invoke _ _ _ _) as [s1|e s1]; cbn in *; by split.
Qed.

Lemma keeps_open_step Ack op s :
  keeps_open op = true ->
  never_releases (onReplyCallback s) = true ->
  releases (state_of (step Ack op s)) = releases s
  /\ never_releases (onReplyCallback (state_of (step Ack op s))) = true.
Proof.
  intros Hop Hl. destruct op; try discriminate; cbn [step state_of].
  - by split.
  - destruct (keeps_open_invoke Ack (onReplyCallback s) m s Hl) as [Hr Hn].
    split; [exact Hr | by apply Hn].
  - by split.
  - by apply keeps_open_onReply.
  - unfold waitNextMessage, asyncOperation, executor.
    match goal with |- context [onReply Ack ?l ?s0] =>
      destruct (keeps_open_onReply Ack l s0 eq_refl) as [Hr Hn];
      destruct (onReply Ack l s0) as [s1|e s1] end; cbn [snd state_of] in *.
    + split; [exact Hr | exact Hn].
    + split; [rewrite releases_reject; exact Hr | fields; exact Hn].
Qed.

(** X11. Only [disconnect], [ackThenClose], [firstThenClose] and the error
    path of [waitNext] release a handle.  On a handle that has seen none of
    them, any sequence of [send], [next], [onReply], [onRejected] and
    [waitNextMessage] calls leaves the number of [release] calls unchanged: a
    handle used through [waitNextMessage] alone is never released by its
    replies. *)
Theorem open_handle_is_never_released Ack ops s :
  never_releases (onReplyCallback s) = true ->
  forallb keeps_open ops = true ->
  releases (run Ack ops s) = releases s
  /\ never_releases (onReplyCallback (run Ack ops s)) = true.
Proof.
  revert s. induction ops as [|op ops IH]; intros s Hl Hops; [by split|].
  cbn [forallb] in Hops. apply andb_prop in Hops as [Hop Hops].
  cbn [run]. destruct (keeps_open_step Ack op s Hop Hl) as [Hr Hn].
  destruct (IH _ Hn Hops) as [Hr' Hn']. split; [congruence | exact Hn'].
Qed.

Lemma open_handle_is_never_released_witness :
  releases (run 0 [OpSend 3 None None; OpWaitNextMessage; OpNext (reply 1 true);
                   OpOnReply 2; OpNext (reply 5 false)] constructor)
  = releases constructor.
Proof.
  destruct (open_handle_is_never_released 0
              [OpSend 3 None None; OpWaitNextMessage; OpNext (reply 1 true);
               OpOnReply 2; OpNext (reply 5 false)] constructor)
    as [Hreleases _]; [reflexivity.. | exact Hreleases].
Defined.

(** ** ackThenClose *)

(** X9. [ackThenClose] settles on the first reply, whatever it is, and
    [next] returns.  The promise is resolved exactly when the reply's type is
    Ack, the error tag notwithstanding; a reply of another type that is not
    error-tagged rejects it with UnexpectedMessageType('Expected message type
    Ack, but received <type>').  In every case [release] has been called
    once, the rejection callback is cleared and the bound default listener is
    in place. *)
Theorem ackThenClose_settles_on_any_reply Ack p m s :
  awaiting (AckThenCloseListener p) p s ->
  exists s' r,
    next Ack m s = Returned s'
    /\ promises s' !! p = Some r
    /\ r <> Pending
    /\ (r = Resolved Undefined <-> type m = Ack)
    /\ (type m <> Ack -> isError m = false ->
        r = Rejected (UnexpectedMessageType
              ("Expected message type Ack, but received " +:+ pretty (type m))))
    /\ releases s' = S (releases s)
    /\ rejected s' = None
    /\ onReplyCallback s' = CatchOnReplyCallback.
Proof.
  intros [Hl Hp]. unfold next. rewrite Hl. cbn [invoke].
  reply_cases m; eexists _, _; (split; [reflexivity|]);
    (split; [first [apply resolve_pending | apply reject_pending]; exact Hp|]);
    (split; [discriminate|]);
    (split; [split; [discriminate || done | done || intros; done]|]);
    (split; [done || (intros; congruence)|]);
    rewrite ?releases_resolve, ?releases_reject;
    repeat split; by fields.
Qed.

Lemma ackThenClose_settles_on_any_reply_witness :
  let s := snd (ackThenClose 0 constructor) in
  exists s' r,
    next 0 (reply 0 true) s = Returned s'
    /\ promises s' !! 0%nat = Some r
    /\ r <> Pending
    /\ (r = Resolved Undefined <-> type (reply 0 true) = 0)
    /\ (type (reply 0 true) <> 0 -> isError (reply 0 true) = false ->
        r = Rejected (UnexpectedMessageType
              ("Expected message type Ack, but received "
               +:+ pretty (type (reply 0 true)))))
    /\ releases s' = S (releases s)
    /\ rejected s' = None
    /\ onReplyCallback s' = CatchOnReplyCallback.
Proof.
  intros s.
  apply (ackThenClose_settles_on_any_reply 0 0 (reply 0 true) s).
  split; reflexivity.
Defined.

(** * Properties of HttpModule *)

Section HttpModuleProperties.
Import HttpModule.

Lemma flags_from (acc : bool * bool) params :
  snd (foldl (fun '(requiresHttpRequest, needsAsync) parameter =>
           (if parameterRequiresRequest parameter then true else requiresHttpRequest,
            if getType parameter "httpBody" then true else needsAsync))
        acc params)
  = snd acc || existsb (fun p => getType p "httpBody") params.
Proof.
  revert acc. induction params as [|p ps IH]; intros [r a]; cbn.
  - by rewrite orb_false_r.
  - rewrite IH. cbn. destruct (getType p "httpBody"); cbn; [|done].
    by rewrite orb_true_r.
Qed.

Lemma needsAsync_spec params :
  snd (flags params) = true
  <-> exists p, p ∈ params /\ getType p "httpBody" = true.
Proof.
  unfold flags. rewrite flags_from. cbn. rewrite existsb_exists.
  split; intros (p & Hin & Hp); exists p; (split; [|exact Hp]);
    by apply list_elem_of_In.
Qed.

(** X12. [processListener] throws exactly when the listener is for one of the
    three patched events and a parameter after the first carries the httpBody
    annotation; it then has made no call.  A listener for any other event is
    left alone, whatever its parameters.  The first parameter, the event, is
    never inspected. *)
Theorem processListener_throws_iff_httpBody listener :
  (processListener listener = inl RequiresAsyncHttpBody
   <-> eventToken listener ∈ [onRequest; onAuth; onController]
       /\ exists p, p ∈ drop 1 (getParameters listener)
                    /\ getType p "httpBody" = true)
  /\ (eventToken listener ∉ [onRequest; onAuth; onController] ->
      processListener listener = inr [])
  /\ (forall p p' ps,
      getParameters listener = p :: ps ->
      processListener listener
      = processListener {| eventToken := eventToken listener;
                           getParameters := p' :: ps |}).
Proof.
  unfold processListener, patchEventsForHttpRequestAccess.
  split; [|split].
  - case_bool_decide as Htok.
    + destruct (snd (flags (drop 1 (getParameters listener)))) eqn:Hflag.
      * split; [intros _|done]. split; [exact Htok|].
        by apply needsAsync_spec.
      * split; [done|]. intros [_ Hp]. apply needsAsync_spec in Hp. congruence.
    + split; [done|]. by intros [? _].
  - intros Htok. by rewrite bool_decide_eq_false_2.
  - intros p p' ps ->. reflexivity.
Qed.

Lemma processListener_throws_iff_httpBody_witness :
  let body := {| name := "body"; getType := fun a => bool_decide (a = "httpBody") |} in
  let event := {| name := "event"; getType := fun _ => false |} in
  processListener {| eventToken := onAuth; getParameters := [event; body] |}
  = inl RequiresAsyncHttpBody.
Proof.
  intros body event.
  apply (processListener_throws_iff_httpBody
           {| eventToken := onAuth; getParameters := [event; body] |}).
  split.
  - cbn. set_solver.
  - exists body. split; [cbn; set_solver | reflexivity].
Defined.

Lemma provider_indices_register k params i :
  i ∈ provider_indices (register k params)
  <-> (k <= i)%nat
      /\ exists p, params !! (i - k)%nat = Some p
                   /\ parameterRequiresRequest p = true.
Proof.
  revert k. induction params as [|p ps IH]; intros k; cbn [register].
  - cbn. split; [by intros ?%elem_of_nil | by intros (_ & ? & ? & _)].
  - assert (Hrest : i ∈ provider_indices (register (S k) ps)
              <-> (k < i)%nat /\ exists q, (p :: ps) !! (i - k)%nat = Some q
                                           /\ parameterRequiresRequest q = true).
    { rewrite IH. split.
      - intros (Hle & q & Hq & Hreq). split; [lia|]. exists q. split; [|done].
        replace (i - k)%nat with (S (i - S k)) by lia. exact Hq.
      - intros (Hlt & q & Hq & Hreq). split; [lia|]. exists q. split; [|done].
        replace (i - k)%nat with (S (i - S k)) in Hq by lia. exact Hq. }
    destruct (parameterRequiresRequest p) eqn:Hp; cbn [provider_indices].
    + rewrite elem_of_cons, Hrest. split.
      * intros [-> | (Hlt & Hq)]; [|split; [lia | exact Hq]].
        split; [lia|]. exists p. rewrite Nat.sub_diag. by split.
      * intros (Hle & q & Hq & Hreq).
        destruct (decide (i = k)) as [-> | Hne]; [by left|].
        right. split; [lia|]. by exists q.
    + rewrite Hrest. split.
      * intros (Hlt & Hq). split; [lia | exact Hq].
      * intros (Hle & q & Hq & Hreq).
        destruct (decide (i = k)) as [-> | Hne].
        -- rewrite Nat.sub_diag in Hq. cbn in Hq. congruence.
        -- split; [lia|]. by exists q.
Qed.

Lemma provider_indices_register_NoDup k params :
  NoDup (provider_indices (register k params)).
Proof.
  revert k. induction params as [|p ps IH]; intros k; cbn [register].
  - constructor.
  - destruct (parameterRequiresRequest p); cbn [provider_indices]; [|apply IH].
    constructor; [|apply IH].
    rewrite provider_indices_register. intros [Hle _]. lia.
Qed.

Lemma register_length k params :
  length (register k params) = (3 * length (provider_indices (register k params)))%nat.
Proof.
  revert k. induction params as [|p ps IH]; intros k; cbn [register]; [done|].
  destruct (parameterRequiresRequest p); cbn [provider_indices length];
    rewrite IH; lia.
Qed.

Lemma register_rounds k params :
  register k params = mjoin (imap (fun i => round (k + i)) params).
Proof.
  revert k. induction params as [|p ps IH]; intros k; [reflexivity|].
  assert (Hrest : register (S k) ps
                  = mjoin (imap ((fun i => round (k + i)) ∘ S) ps)).
  { rewrite IH. f_equal. apply imap_ext. intros i x _. cbn.
    by rewrite Nat.add_succ_r. }
  rewrite imap_cons.
  change (register k (p :: ps)
          = round (k + 0) p ++ mjoin (imap ((fun i => round (k + i)) ∘ S) ps)).
  rewrite <- Hrest, Nat.add_0_r. cbn [register]. unfold round, provider_calls.
  by destruct (parameterRequiresRequest p).
Qed.

Lemma elem_of_rounds params call :
  call ∈ mjoin (imap round params)
  <-> exists i p, params !! i = Some p
                  /\ parameterRequiresRequest p = true
                  /\ call ∈ provider_calls i p.
Proof.
  rewrite list_elem_of_join. split.
  - intros (l & Hcall & Hl). apply elem_of_lookup_imap in Hl as (i & p & -> & Hp).
    exists i, p. unfold round in Hcall.
    destruct (parameterRequiresRequest p); [done|]. by apply elem_of_nil in Hcall.
  - intros (i & p & Hp & Hreq & Hcall). exists (round i p). split.
    + unfold round. by rewrite Hreq.
    + by apply elem_of_lookup_imap_2.
Qed.

(** X13. When [processListener] returns for a listener of a patched event, it
    has registered one provider for each parameter after the first that asks
    for request data, and for no other: the provider for the parameter at
    position [i] (counting from the parameter after the event) reads
    [result.arguments\[i\]].  No position is served twice, and none of the
    parameters carries the httpBody annotation.  The calls made are, for each
    such parameter in order, [registerType] on that parameter, [addProvider]
    and [addExport], all three with the symbol
    Symbol('event.parameter:' + name) created for it, and nothing else: every
    provider has its [registerType] and its [addExport], and every
    [registerType] and [addExport] belongs to a provider. *)
Theorem processListener_providers listener calls :
  eventToken listener ∈ [onRequest; onAuth; onController] ->
  processListener listener = inr calls ->
  let params := drop 1 (getParameters listener) in
  (forall i, i ∈ provider_indices calls
             <-> exists p, params !! i = Some p
                           /\ parameterRequiresRequest p = true)
  /\ NoDup (provider_indices calls)
  /\ length calls = (3 * length (provider_indices calls))%nat
  /\ (forall p, p ∈ params -> getType p "httpBody" = false)
  /\ calls
     = mjoin (imap (fun i p =>
                      if parameterRequiresRequest p then
                        let unique :=
                          {| description := "event.parameter:" +:+ name p;
                             created_at := i |} in
                        [registerType p unique; addProvider unique i;
                         addExport unique]
                      else []) params)
  /\ (forall unique i,
      addProvider unique i ∈ calls ->
      exists p, params !! i = Some p
                /\ parameterRequiresRequest p = true
                /\ unique = {| description := "event.parameter:" +:+ name p;
                               created_at := i |}
                /\ registerType p unique ∈ calls
                /\ addExport unique ∈ calls)
  /\ (forall p unique,
      registerType p unique ∈ calls ->
      params !! created_at unique = Some p
      /\ addProvider unique (created_at unique) ∈ calls)
  /\ (forall unique,
      addExport unique ∈ calls ->
      addProvider unique (created_at unique) ∈ calls).
Proof.
  intros Htok. unfold processListener, patchEventsForHttpRequestAccess.
  rewrite bool_decide_eq_true_2 by exact Htok.
  destruct (snd (flags (drop 1 (getParameters listener)))) eqn:Hflag; [done|].
  intros Hcalls. injection Hcalls as <-. cbn zeta.
  pose proof (register_rounds 0 (drop 1 (getParameters listener))) as Hrounds.
  change (fun i => round (0 + i)) with round in Hrounds.
  assert (Hmem : forall call,
    call ∈ register 0 (drop 1 (getParameters listener))
    <-> exists i p, drop 1 (getParameters listener) !! i = Some p
                    /\ parameterRequiresRequest p = true
                    /\ call ∈ provider_calls i p).
  { intros call. rewrite Hrounds. apply elem_of_rounds. }
  split; [|split; [|split; [|split; [|split; [|split; [|split]]]]]].
  - intros i. split.
    + intros Hi. apply provider_indices_register in Hi as (_ & p & Hp & Hreq).
      exists p. by rewrite Nat.sub_0_r in Hp.
    + intros (p & Hp & Hreq). apply provider_indices_register.
      split; [lia|]. exists p. by rewrite Nat.sub_0_r.
  - apply provider_indices_register_NoDup.
  - apply register_length.
  - intros p Hin. destruct (getType p "httpBody") eqn:Hbody; [|done].
    assert (snd (flags (drop 1 (getParameters listener))) = true)
      by (apply needsAsync_spec; eauto).
    congruence.
  - exact Hrounds.
  - intros unique i Hin. apply Hmem in Hin as (j & p & Hp & Hreq & Hcall).
    unfold provider_calls in Hcall. cbn zeta in Hcall.
    rewrite !elem_of_cons, elem_of_nil in Hcall.
    destruct Hcall as [[=] | [[= -> ->] | [[=] | []]]].
    exists p. split; [exact Hp|]. split; [exact Hreq|]. split; [reflexivity|].
    split; apply Hmem; exists j, p; (split; [exact Hp|]);
      (split; [exact Hreq|]); unfold provider_calls; cbn zeta;
      rewrite !elem_of_cons; [by left | right; right; by left].
  - intros p unique Hin. apply Hmem in Hin as (j & q & Hq & Hreq & Hcall).
    unfold provider_calls in Hcall. cbn zeta in Hcall.
    rewrite !elem_of_cons, elem_of_nil in Hcall.
    destruct Hcall as [[= -> ->] | [[=] | [[=] | []]]]. cbn [created_at].
    split; [exact Hq|]. apply Hmem. exists j, q. split; [exact Hq|].
    split; [exact Hreq|]. unfold provider_calls. cbn zeta.
    rewrite !elem_of_cons. right. by left.
  - intros unique Hin. apply Hmem in Hin as (j & q & Hq & Hreq & Hcall).
    unfold provider_calls in Hcall. cbn zeta in Hcall.
    rewrite !elem_of_cons, elem_of_nil in Hcall.
    destruct Hcall as [[=] | [[=] | [[= ->] | []]]]. cbn [created_at].
    apply Hmem. exists j, q. split; [exact Hq|].
    split; [exact Hreq|]. unfold provider_calls. cbn zeta.
    rewrite !elem_of_cons. right. by left.
Qed.

End HttpModuleProperties.

Lemma processListener_providers_witness :
  let plain := {| HttpModule.name := "logger";
                  HttpModule.getType := fun _ => false |} in
  let query := {| HttpModule.name := "page";
                  HttpModule.getType := fun a => bool_decide (a = "httpQuery") |} in
  let listener := {| HttpModule.eventToken := HttpModule.onController;
                     HttpModule.getParameters := [plain; query; plain; query] |} in
  2%nat ∈ HttpModule.provider_indices
            (HttpModule.register 0 (drop 1 (HttpModule.getParameters listener))).
Proof.
  intros plain query listener.
  assert (Htok : HttpModule.eventToken listener
                 ∈ [HttpModule.onRequest; HttpModule.onAuth;
                    HttpModule.onController]) by (cbn; set_solver).
  destruct (processListener_providers listener _ Htok eq_refl) as [Hidx _].
  apply Hidx. exists query. split; reflexivity.
Defined.

Section ParserCache.
Import HttpModule.

Lemma builds_for_cons config b f cache :
  builds_for config {| parserCache := cache; built := b :: built f |}
  = ((if decide (build_config b = config) then 1 else 0) + builds_for config f)%nat.
Proof. unfold builds_for. cbn [built]. rewrite filter_cons. by case_decide. Qed.

Lemma useFactory_cache_stable parser config c b f :
  parserCache f !! c = Some b ->
  parserCache (snd (useFactory parser config f)) !! c = Some b.
Proof.
  intros Hc. unfold useFactory.
  destruct config as [c'|]; cbn; [|exact Hc].
  destruct (parserCache f !! c') as [b'|] eqn:Hc'; cbn; [exact Hc|].
  rewrite lookup_insert_ne; [exact Hc | congruence].
Qed.

Lemma useFactories_cache_stable calls c b f :
  parserCache f !! c = Some b ->
  parserCache (useFactories calls f) !! c = Some b.
Proof.
  revert f. induction calls as [|[parser config] calls IH]; intros f Hc; [done|].
  cbn [useFactories]. apply IH. by apply useFactory_cache_stable.
Qed.

(** X14. The parser built for a route config at its first use serves every
    later factory call for that route, whichever parameter's provider makes it
    and whatever [httpConfig.parser] it comes with: the cache entry is never
    replaced, and the call builds nothing. *)
Theorem cached_parser_is_reused parser0 parser c calls f :
  parserCache f !! c = None ->
  let f1 := snd (useFactory parser0 (Some c) f) in
  let f2 := useFactories calls f1 in
  fst (useFactory parser0 (Some c) f) = buildRequestParser parser0 (Some c)
  /\ useFactory parser (Some c) f2 = (buildRequestParser parser0 (Some c), f2).
Proof.
  intros Hmiss f1 f2.
  assert (H1 : parserCache f1 !! c = Some (buildRequestParser parser0 (Some c))).
  { subst f1. unfold useFactory. cbn. rewrite Hmiss. cbn.
    apply lookup_insert_eq. }
  split.
  - unfold useFactory. cbn. by rewrite Hmiss.
  - pose proof (useFactories_cache_stable calls c _ f1 H1) as H2.
    fold f2 in H2. unfold useFactory. cbn [mbind option_bind]. by rewrite H2.
Qed.

Lemma cached_parser_is_reused_witness :
  let f2 := useFactories [(1%nat, None); (2%nat, Some 9%nat)]
              (snd (useFactory 1 (Some 4%nat) no_builds)) in
  useFactory 3 (Some 4%nat) f2 = (buildRequestParser 1 (Some 4%nat), f2).
Proof.
  intros f2.
  destruct (cached_parser_is_reused 1 3 4 [(1%nat, None); (2%nat, Some 9%nat)]
              no_builds) as [_ Hreused]; [reflexivity | exact Hreused].
Defined.

Lemma useFactory_builds_for parser config c f :
  builds_for c (snd (useFactory parser config f))
  = (builds_for c f
     + if bool_decide (config = c /\ config ≫= (fun k => parserCache f !! k) = None)
       then 1 else 0)%nat.
Proof.
  unfold useFactory.
  destruct (config ≫= (fun k => parserCache f !! k)) as [b|] eqn:Hlook;
    cbn [snd].
  - rewrite bool_decide_eq_false_2; [lia | by intros [_ ?]].
  - rewrite builds_for_cons. cbn [build_config].
    destruct (decide (config = c)) as [Heq | Hne].
    + rewrite bool_decide_eq_true_2 by done. lia.
    + rewrite bool_decide_eq_false_2; [lia | by intros [? _]].
Qed.

Lemma useFactory_cached parser config c f :
  is_Some (parserCache (snd (useFactory parser config f)) !! c)
  <-> is_Some (parserCache f !! c) \/ config = Some c.
Proof.
  unfold useFactory. destruct config as [k|]; cbn.
  - destruct (parserCache f !! k) as [b|] eqn:Hk; cbn.
    + split; [by left|]. intros [? | [= <-]]; [done | by rewrite Hk].
    + rewrite lookup_insert. case_decide as Hkc.
      * subst. split; [by right | by intros _].
      * split; [by left|]. intros [? | [= ?]]; [done | congruence].
  - split; [by left | by intros [? | ?]].
Qed.

Lemma useFactory_counted parser config c f :
  counted c f -> counted c (snd (useFactory parser config f)).
Proof.
  unfold counted. intros Hinv.
  rewrite useFactory_builds_for, Hinv.
  pose proof (useFactory_cached parser config c f) as Hc.
  destruct (decide (config = Some c)) as [-> | Hne].
  - rewrite (bool_decide_eq_true_2
               (is_Some (parserCache (snd (useFactory parser (Some c) f)) !! c)))
      by (apply Hc; by right).
    cbn [mbind option_bind].
    destruct (parserCache f !! c) as [b|] eqn:Hlook.
    + rewrite bool_decide_eq_true_2 by done.
      rewrite bool_decide_eq_false_2; [lia | by intros [_ ?]].
    + rewrite bool_decide_eq_false_2 by (by intros [? ?]).
      rewrite bool_decide_eq_true_2 by done. lia.
  - rewrite (bool_decide_eq_false_2 (config = Some c /\ _)) by (by intros [? _]).
    rewrite Nat.add_0_r. apply (f_equal (fun b : bool => if b then 1%nat else 0%nat)).
    apply bool_decide_ext. rewrite Hc. split; [by left|].
    by intros [? | ?].
Qed.

Lemma useFactories_builds_for calls c f :
  counted c f ->
  builds_for (Some c) (useFactories calls f)
  = if bool_decide (is_Some (parserCache f !! c) \/ Some c ∈ calls.*2)
    then 1%nat else 0%nat.
Proof.
  revert f. induction calls as [|[parser config] calls IH]; intros f Hinv.
  - cbn [useFactories]. rewrite Hinv.
    apply (f_equal (fun b : bool => if b then 1%nat else 0%nat)).
    apply bool_decide_ext. split; [by left|].
    intros [? | Hin]; [done|]. by apply elem_of_nil in Hin.
  - cbn [useFactories]. rewrite IH by (by apply useFactory_counted).
    apply (f_equal (fun b : bool => if b then 1%nat else 0%nat)).
    apply bool_decide_ext. rewrite useFactory_cached.
    cbn [fmap list_fmap snd]. rewrite elem_of_cons.
    split.
    + intros [[? | ->] | ?]; [by left | right; by left | right; by right].
    + intros [? | [-> | ?]]; [left; by left | left; by right | by right].
Qed.

(** X15. However many factory calls share the cache of one [processListener]
    call, [buildRequestParser] is called once for each route config that
    occurs among them and never for another; calls without a route config
    are not cached: each of them builds. *)
Theorem parser_built_once_per_route calls :
  let f := useFactories calls no_builds in
  (forall c, builds_for (Some c) f
             = if bool_decide (Some c ∈ calls.*2) then 1%nat else 0%nat)
  /\ builds_for None f = length (filter (fun call => call.2 = None) calls).
Proof.
  cbn zeta. split.
  - intros c. rewrite useFactories_builds_for by reflexivity.
    apply (f_equal (fun b : bool => if b then 1%nat else 0%nat)).
    apply bool_decide_ext. split; [|by right].
    intros [[b Hb] | ?]; [|done]. cbn in Hb. by rewrite lookup_empty in Hb.
  - assert (Hgen : forall f,
      builds_for None (useFactories calls f)
      = (builds_for None f + length (filter (fun call => call.2 = None) calls))%nat).
    { induction calls as [|[parser config] calls IH]; intros f; [cbn; lia|].
      cbn [useFactories]. rewrite IH, useFactory_builds_for, filter_cons.
      destruct config as [k|]; cbn [snd].
      - rewrite bool_decide_eq_false_2 by (by intros [? _]).
        rewrite decide_False by done. lia.
      - rewrite bool_decide_eq_true_2 by done.
        rewrite decide_True by done. cbn [length]. lia. }
    by rewrite Hgen.
Qed.

End ParserCache.
